(** * mistune: the Markdown orchestrator (markdown.py)

    A shallow embedding of [mistune/markdown.py]: the [Markdown] class with
    its hook lists, the lazy token-tree resolver [_iter_render], and the
    entry points [parse], [read] and [__call__].

    The block parser, the inline parser, the renderer and the hooks are
    external callables.  They are fields of the record [Markdown] below, so
    every theorem holds for whatever they compute.  Exceptions are explicit
    ([outcome]), the parse state is threaded through every call, and each
    call of an external callable is recorded in a log, so that statements
    about "who was called, when, with what" are statements about that log. *)

From Stdlib Require Import String Ascii List Bool Arith ZArith Lia.
From stdpp Require Import base option list gmap strings.

Set Warnings "-register-all".

Open Scope string_scope.
Open Scope list_scope.

(** ** Python strings

    A [str] is modelled as a [string]; the characters are the code points
    0..255. *)
Module Str.

Definition LF : ascii := "010"%char.
Definition CR : ascii := "013"%char.
Definition nl : string := String LF "".
Definition cr : string := String CR "".
Definition crlf : string := String CR (String LF "").

(** [s.replace(old, new)] for a non-empty [old]: scan from the left, and
    after a match skip the rest of the matched characters ([skip] counts
    them), so that occurrences do not overlap. *)
Fixpoint replace_from (old new : string) (skip : nat) (s : string) : string :=
  match s with
  | EmptyString => EmptyString
  | String c s' =>
      match skip with
      | S k => replace_from old new k s'
      | O =>
          if String.prefix old s
          then new +:+ replace_from old new (String.length old - 1) s'
          else String c (replace_from old new 0 s')
      end
  end.

Definition replace (old new s : string) : string := replace_from old new 0 s.

(** [s.endswith(suffix)] *)
Fixpoint endswith (s suffix : string) : bool :=
  String.eqb s suffix
  || match s with
     | EmptyString => false
     | String _ s' => endswith s' suffix
     end.

(** [c.isspace()] on the code points below 256. *)
Definition isspace (c : ascii) : bool :=
  let n := nat_of_ascii c in
  ((9 <=? n)%nat && (n <=? 13)%nat) || ((28 <=? n)%nat && (n <=? 32)%nat)
  || (n =? 133)%nat || (n =? 160)%nat.

Fixpoint lstrip (s : string) : string :=
  match s with
  | EmptyString => EmptyString
  | String c s' => if isspace c then lstrip s' else s
  end.

Fixpoint rstrip (s : string) : string :=
  match s with
  | EmptyString => EmptyString
  | String c s' =>
      match rstrip s' with
      | EmptyString => if isspace c then EmptyString else String c EmptyString
      | r => String c r
      end
  end.

(** [s.strip()] *)
Definition strip (s : string) : string := rstrip (lstrip s).

(** The characters of a string, and the number of newlines it ends with. *)
Fixpoint chars (s : string) : list ascii :=
  match s with
  | EmptyString => []
  | String c s' => c :: chars s'
  end.

Definition last_char (s : string) : option ascii := last (chars s).

Fixpoint trailing_newlines (s : string) : nat :=
  match s with
  | EmptyString => 0
  | String c s' =>
      if Ascii.eqb c LF && (trailing_newlines s' =? String.length s')%nat
      then S (trailing_newlines s')
      else trailing_newlines s'
  end.

End Str.

(** ** Tokens, values, exceptions

    A token is a [dict].  The resolver looks at two keys only, ['children']
    and ['text']; each may be present or absent, independently.  The other
    keys (['type'], ['attrs'], ...) are carried along. *)
Inductive token : Type :=
  Token { tok_type : string;
          tok_children : option (list token);
          tok_text : option string;
          tok_attrs : list (string * string) }.

(** What [parse] may return and what [env] may hold: Python values. *)
Inductive value : Type :=
| VTokens (tokens : list token)
| VStr (s : string)
| VNum (n : Z)
| VBox (v : value).

Inductive exn : Type :=
| IOError (filepath : string)
| UnicodeDecodeError (encoding : string)
| Exception (msg : string).

Inductive outcome (A : Type) : Type :=
| Ok (a : A)
| Raise (e : exn).
Arguments Ok {A} a.
Arguments Raise {A} e.

Definition raised {A} (o : outcome A) : option exn :=
  match o with
  | Ok _ => None
  | Raise e => Some e
  end.

(** ** The parse state *)

(** Modelled from the spec: [BlockState] is declared in core.py, which is
    not part of the sources at hand.  Section 3 gives it [tokens] and [env],
    the two attributes that markdown.py reads and writes; section 6 gives
    it the raw source that [process] loads. *)
Record BlockState : Type := mkState {
  st_src : string;
  st_tokens : list token;
  st_env : gmap string value
}.

Definition set_env (env : gmap string value) (st : BlockState) : BlockState :=
  {| st_src := st_src st; st_tokens := st_tokens st; st_env := env |}.

Definition set_tokens (tokens : list token) (st : BlockState) : BlockState :=
  {| st_src := st_src st; st_tokens := tokens; st_env := st_env st |}.

(** ** The log of external calls *)
Inductive extcall : Type :=
| CProcess (s : string)                       (* state.process(s) *)
| CBeforeParse (i : nat)                      (* before_parse_hooks[i](self, state) *)
| CBlockParse                                 (* self.block.parse(state) *)
| CBeforeRender (i : nat)                     (* before_render_hooks[i](self, state) *)
| CInline (text : string) (env : gmap string value)  (* self.inline(text, state.env) *)
| CRenderer                                   (* self.renderer(data, state) *)
| CAfterRender (i : nat) (result : value).    (* after_render_hooks[i](self, result, state) *)

(** A call and the exception it ended with, if any. *)
Record event : Type := Event { ev_call : extcall; ev_raised : option exn }.

Record world : Type := World { w_state : BlockState; w_log : list event }.

(** ** Computations: state, log and exceptions *)
Definition M (A : Type) : Type := world -> outcome A * world.

Definition ret {A} (a : A) : M A := fun w => (Ok a, w).

Definition bind {A B} (m : M A) (f : A -> M B) : M B :=
  fun w =>
    match m w with
    | (Ok a, w') => f a w'
    | (Raise e, w') => (Raise e, w')
    end.

Declare Scope pymonad_scope.
Delimit Scope pymonad_scope with py.
Notation "x <- m ;; k" := (bind m (fun x => k))
  (at level 100, m at next level, right associativity) : pymonad_scope.
Notation "m ;; k" := (bind m (fun _ => k))
  (at level 100, right associativity) : pymonad_scope.
Open Scope pymonad_scope.

Definition get_state : M BlockState := fun w => (Ok (w_state w), w).

Definition record (ev : event) (w : world) : world :=
  World (w_state w) (w_log w ++ [ev]).

(** Call an external callable on the parse state and record the call. *)
Definition invoke {A} (c : extcall) (f : BlockState -> outcome A * BlockState) : M A :=
  fun w =>
    let (o, st') := f (w_state w) in
    (o, World st' (w_log w ++ [Event c (raised o)])).

(** ** Collaborators

    A hook is called as [hook(self, state)], or [hook(self, result, state)]
    after rendering; [self] is the same instance throughout, so a hook is
    what it does to the state (and to the result), or the exception it
    raises. *)
Definition hook : Type := BlockState -> outcome unit * BlockState.
Definition render_hook : Type := value -> BlockState -> outcome value * BlockState.

(** [BlockState], the class, as [parse] uses it: its constructor and its
    [process] method (core.py); and the block parser (block_parser.py) with
    its [state_cls] and its [parse].  What they compute is left open. *)
Record StateClass : Type := {
  new_state : BlockState;
  process : string -> BlockState -> outcome unit * BlockState
}.

Record BlockParser : Type := {
  state_cls : StateClass;
  block_parse : BlockState -> outcome unit * BlockState
}.

(** A renderer is called with the generator and the state.  What it does
    with them is its own business: it may pull tokens one by one, stop
    early, catch what [next] raises, look at and change the state.  A
    renderer is therefore a program over these operations. *)
Inductive rprog : Type :=
| RReturn (v : value)
| RRaise (e : exn)
| RNext (k : outcome (option token) -> rprog)
| RState (k : BlockState -> BlockState * rprog).

Record Markdown : Type := {
  renderer : option rprog;
  block : BlockParser;
  inline : string -> gmap string value -> outcome (list token) * gmap string value;
  before_parse_hooks : list hook;
  before_render_hooks : list hook;
  after_render_hooks : list render_hook
}.

(** [self.inline(text, state.env)] *)
Definition call_inline (md : Markdown) (text : string) : M (list token) :=
  fun w =>
    let st := w_state w in
    let (o, env') := inline md text (st_env st) in
    (o, World (set_env env' st)
              (w_log w ++ [Event (CInline text (st_env st)) (raised o)])).

(** ** Generators

    A suspended generator is what [next] does to it: stop, yield a token
    and be suspended again, or raise. *)
Inductive generator : Type :=
| Gen (next : world -> outcome (option (token * generator)) * world).

Definition gen_next (g : generator) : M (option (token * generator)) :=
  match g with Gen next => next end.

(** A generator that has returned or raised: [next] raises StopIteration. *)
Definition exhausted : generator := Gen (ret None).

(** [list(g)] *)
Fixpoint py_list (g : generator) (w : world) {struct g} : outcome (list token) * world :=
  match g with
  | Gen next =>
      match next w with
      | (Ok None, w') => (Ok [], w')
      | (Ok (Some (tok, g')), w') =>
          match py_list g' w' with
          | (Ok l, w'') => (Ok (tok :: l), w'')
          | (Raise e, w'') => (Raise e, w'')
          end
      | (Raise e, w') => (Raise e, w')
      end
  end.

(** ** The tree resolver *)
Section Resolver.

Variable md : Markdown.

(** The body of the [for] loop of [_iter_render], for one token:
<<
            if 'children' in tok:
                children = self._iter_render(tok['children'], state)
                tok['children'] = list(children)
            elif 'text' in tok:
                text = tok.pop('text')
                tok['children'] = self.inline(text.strip(), state.env)
>>
    The inner [fix] is [_iter_render] itself, see [resolve_token_children]. *)
Fixpoint resolve_token (tok : token) {struct tok} : M token :=
  match tok with
  | Token ty (Some cs) tx attrs =>
      children <- py_list
        ((fix _iter_render (tokens : list token) : generator :=
            Gen (match tokens with
                 | [] => ret None
                 | tok :: rest =>
                     tok' <- resolve_token tok ;;
                     ret (Some (tok', _iter_render rest))
                 end)) cs) ;;
      ret (Token ty (Some children) tx attrs)
  | Token ty None (Some text) attrs =>
      children <- call_inline md (Str.strip text) ;;
      ret (Token ty (Some children) None attrs)
  | Token ty None None attrs => ret tok
  end.

(** [_iter_render(tokens, state)]: a generator; nothing runs until [next].
<<
        for tok in tokens:
            ...
            yield tok
>> *)
Fixpoint _iter_render (tokens : list token) : generator :=
  Gen (match tokens with
       | [] => ret None
       | tok :: rest =>
           tok' <- resolve_token tok ;;
           ret (Some (tok', _iter_render rest))
       end).

End Resolver.

(** The tokens a generator over [state.tokens] yields are the very dicts
    the list holds: once the [i]-th token is yielded, [state.tokens[i]] is
    the resolved token.  (Tokens form a tree: no dict occurs twice.  A
    token whose resolution is cut short by an exception is left in the list
    as it was; nothing below depends on what it looks like then.) *)
Definition set_token (i : nat) (tok : token) (w : world) : world :=
  World (set_tokens (<[i := tok]> (st_tokens (w_state w))) (w_state w)) (w_log w).

Fixpoint in_place (i : nat) (g : generator) {struct g} : generator :=
  match g with
  | Gen next =>
      Gen (fun w =>
             match next w with
             | (Ok (Some (tok, g')), w') =>
                 (Ok (Some (tok, in_place (S i) g')), set_token i tok w')
             | (Ok None, w') => (Ok None, w')
             | (Raise e, w') => (Raise e, w')
             end)
  end.

(** Running a renderer against the generator it was given. *)
Fixpoint run_renderer (p : rprog) (data : generator) (w : world) {struct p}
  : outcome value * world :=
  match p with
  | RReturn v => (Ok v, w)
  | RRaise e => (Raise e, w)
  | RNext k =>
      match gen_next data w with
      | (Ok (Some (tok, data')), w') => run_renderer (k (Ok (Some tok))) data' w'
      | (Ok None, w') => run_renderer (k (Ok None)) exhausted w'
      | (Raise e, w') => run_renderer (k (Raise e)) exhausted w'
      end
  | RState k =>
      match k (w_state w) with
      | (st', p') => run_renderer p' data (World st' (w_log w))
      end
  end.

(** [self.renderer(data, state)] *)
Definition call_renderer (r : rprog) (data : generator) : M value :=
  fun w =>
    let (o, w') := run_renderer r data w in
    (o, record (Event CRenderer (raised o)) w').

(** [render_state(self, state)] *)
Definition render_state (md : Markdown) : M value :=
  fun w =>
    let data := in_place 0 (_iter_render md (st_tokens (w_state w))) in
    match renderer md with
    | Some r => call_renderer r data w
    | None => (tokens <- py_list data ;; ret (VTokens tokens)) w
    end.

(** ** parse *)

(** [for hook in hooks: hook(self, state)] *)
Fixpoint run_hooks (stage : nat -> extcall) (i : nat) (hooks : list hook) : M unit :=
  match hooks with
  | [] => ret tt
  | h :: rest => invoke (stage i) h ;; run_hooks stage (S i) rest
  end.

(** [for hook in self.after_render_hooks: result = hook(self, result, state)] *)
Fixpoint run_after_hooks (i : nat) (hooks : list render_hook) (result : value) : M value :=
  match hooks with
  | [] => ret result
  | h :: rest =>
      result' <- invoke (CAfterRender i result) (h result) ;;
      run_after_hooks (S i) rest result'
  end.

(** The two [replace] calls of the line-separator normalisation. *)
Definition unify_newlines (s : string) : string :=
  Str.replace Str.cr Str.nl (Str.replace Str.crlf Str.nl s).

Definition normalize (s : string) : string :=
  let s := Str.replace Str.crlf Str.nl s in
  let s := Str.replace Str.cr Str.nl s in
  if negb (Str.endswith s Str.nl) then s +:+ Str.nl else s.

Definition state_or_new (md : Markdown) (state : option BlockState) : BlockState :=
  match state with
  | Some st => st
  | None => new_state (state_cls (block md))
  end.

(** Everything [parse] does once the state is chosen and the text is
    normalised. *)
Definition pipeline (md : Markdown) (s : string) : M (value * BlockState) :=
  invoke (CProcess s) (process (state_cls (block md)) s) ;;
  run_hooks CBeforeParse 0 (before_parse_hooks md) ;;
  invoke CBlockParse (block_parse (block md)) ;;
  run_hooks CBeforeRender 0 (before_render_hooks md) ;;
  result <- render_state md ;;
  result <- run_after_hooks 0 (after_render_hooks md) result ;;
  state <- get_state ;;
  ret (result, state).

(** [parse(self, s, state=None)]; [log] is the log so far. *)
Definition parse (md : Markdown) (s : string) (state : option BlockState)
    (log : list event) : outcome (value * BlockState) * world :=
  let state := state_or_new md state in
  let s := normalize s in
  pipeline md s (World state log).

(** ** read and __call__ *)

(** The file system and the codecs, as [read] sees them. *)
Record Host : Type := {
  open_rb : string -> outcome (list Byte.byte);      (* open(path, 'rb').read() *)
  decode : string -> list Byte.byte -> outcome string  (* bytes.decode(encoding) *)
}.

(** [read(self, filepath, encoding='utf-8', state=None)] *)
Definition read (md : Markdown) (host : Host) (filepath encoding : string)
    (state : option BlockState) (log : list event)
  : outcome (value * BlockState) * world :=
  let state := state_or_new md state in
  let state := set_env (<["__file__" := VStr filepath]> (st_env state)) state in
  match open_rb host filepath with
  | Raise e => (Raise e, World state log)
  | Ok s =>
      match decode host encoding s with
      | Raise e => (Raise e, World state log)
      | Ok s => parse md s (Some state) log
      end
  end.

(** [__call__(self, s)]; [None] stands for Python's [None]. *)
Definition __call__ (md : Markdown) (s : option string) (log : list event)
  : outcome value * world :=
  let s := match s with
           | None => Str.nl
           | Some s => s
           end in
  match parse md s None log with
  | (Ok (result, _), w) => (Ok result, w)
  | (Raise e, w) => (Raise e, w)
  end.

(** ** Vocabulary of the specification *)

(** The texts the resolver hands to the inline parser for one token, in
    document order. *)
Fixpoint pending_texts (tok : token) : list string :=
  match tok with
  | Token _ (Some cs) _ _ => flat_map pending_texts cs
  | Token _ None (Some text) _ => [Str.strip text]
  | Token _ None None _ => []
  end.

(** The event of an inline call on [text] that returned. *)
Definition inline_returned (ev : event) (text : string) : Prop :=
  exists env, ev = Event (CInline text env) None.

(** Before resolution: all over the tree, a token has at most one of
    ['children'] and ['text']. *)
Inductive at_most_one : token -> Prop :=
| amo_children ty cs attrs :
    Forall at_most_one cs -> at_most_one (Token ty (Some cs) None attrs)
| amo_leaf ty tx attrs :
    at_most_one (Token ty None tx attrs).

(** An already-resolved tree: every token has ['children'], none has
    ['text']. *)
Inductive resolved : token -> Prop :=
| resolved_node ty cs attrs :
    Forall resolved cs -> resolved (Token ty (Some cs) None attrs).

(** A tree with nothing left to resolve: no token that the resolver
    reaches has ['text'] without ['children']. *)
Inductive settled : token -> Prop :=
| settled_node ty cs tx attrs :
    Forall settled cs -> settled (Token ty (Some cs) tx attrs)
| settled_leaf ty attrs :
    settled (Token ty None None attrs).

(** The three cases of the resolver (section 4.2 of the specification),
    as a relation between a token and what it becomes. *)
Inductive Resolves : token -> token -> Prop :=
| Resolves_children ty cs cs' tx attrs :
    Forall2 Resolves cs cs' ->
    Resolves (Token ty (Some cs) tx attrs) (Token ty (Some cs') tx attrs)
| Resolves_text ty text inl attrs :
    Resolves (Token ty None (Some text) attrs) (Token ty (Some inl) None attrs)
| Resolves_plain ty attrs :
    Resolves (Token ty None None attrs) (Token ty None None attrs).

(** [nodewise R t t']: [R] holds between [t] and [t'] and, along the
    children of [t], between every token of the tree of [t] and the token
    at the same place in [t']. *)
Inductive nodewise (R : token -> token -> Prop) : token -> token -> Prop :=
| nodewise_node ty cs tx attrs t' cs' :
    R (Token ty (Some cs) tx attrs) t' ->
    tok_children t' = Some cs' ->
    Forall2 (nodewise R) cs cs' ->
    nodewise R (Token ty (Some cs) tx attrs) t'
| nodewise_leaf ty tx attrs t' :
    R (Token ty None tx attrs) t' ->
    nodewise R (Token ty None tx attrs) t'.

(** What resolution leaves of one token: no ['text']; ['children'] exactly
    when the token had ['children'] or ['text']; nothing else changed. *)
Definition after_resolution (t t' : token) : Prop :=
  tok_text t' = None
  /\ (is_Some (tok_children t') <-> is_Some (tok_children t) \/ is_Some (tok_text t))
  /\ tok_type t' = tok_type t
  /\ tok_attrs t' = tok_attrs t.

(** What a run of the resolver does to the world between [w] and [w']:
    the inline parser was called on [texts], in that order, and returned
    each time; nothing else was called; [state.tokens] and the source are
    as they were (the environment is the inline parser's to change). *)
Definition inline_calls (w w' : world) (texts : list string) : Prop :=
  st_src (w_state w') = st_src (w_state w)
  /\ st_tokens (w_state w') = st_tokens (w_state w)
  /\ exists evs, w_log w' = w_log w ++ evs /\ Forall2 inline_returned evs texts.

(** The resolver's step for one token, when it returns: the token becomes
    what [Resolves] says, and the inline parser has been called on every
    text of its tree. *)
Definition resolve_token_post (md : Markdown) (tok : token) : Prop :=
  forall w tok' w',
    resolve_token md tok w = (Ok tok', w') ->
    Resolves tok tok' /\ inline_calls w w' (pending_texts tok).

(** What is left of the pair that [parse] returns when the state is
    dropped. *)
Definition result_only (r : outcome (value * BlockState) * world) : outcome value * world :=
  match r with
  | (Ok (result, _), w) => (Ok result, w)
  | (Raise e, w) => (Raise e, w)
  end.

(** ** Properties of logs

    [Q r evs]: a computation that ended with [r] ([None]: it returned;
    [Some e]: it raised [e]) added the events [evs] to the log. *)
Definition satisfies {A} (Q : option exn -> list event -> Prop) (m : M A) : Prop :=
  forall w o w',
    m w = (o, w') -> exists evs, w_log w' = w_log w ++ evs /\ Q (raised o) evs.

(** Properties that are kept when computations are put in sequence. *)
Class Sequential (Q : option exn -> list event -> Prop) : Prop := {
  seq_nil : Q None [];
  seq_app evs1 r evs2 : Q None evs1 -> Q r evs2 -> Q r (evs1 ++ evs2)
}.

(** A generator all of whose [next] satisfy [Q]. *)
Inductive gen_satisfies (Q : option exn -> list event -> Prop) : generator -> Prop :=
| gen_satisfies_intro next :
    satisfies Q next ->
    (forall w tok g' w', next w = (Ok (Some (tok, g')), w') -> gen_satisfies Q g') ->
    gen_satisfies Q (Gen next).

Definition is_inline (c : extcall) : bool :=
  match c with
  | CInline _ _ => true
  | _ => false
  end.

(** The calls of the block phase of [parse]. *)
Definition is_block_phase (c : extcall) : bool :=
  match c with
  | CProcess _ | CBeforeParse _ | CBlockParse => true
  | _ => false
  end.

Definition only_inline (r : option exn) (evs : list event) : Prop :=
  Forall (fun ev => is_inline (ev_call ev) = true) evs.

Definition no_block_phase (r : option exn) (evs : list event) : Prop :=
  Forall (fun ev => is_block_phase (ev_call ev) = false) evs.

(** Fail-fast: if the computation raised [e], the last call of the log is
    the one that raised [e]; and a call (among those [P] selects) that
    raised is the last call, and the computation raised what it raised. *)
Definition fail_fast (P : extcall -> Prop) (r : option exn) (evs : list event) : Prop :=
  (forall e, r = Some e -> exists c l, evs = l ++ [Event c (Some e)])
  /\ (forall i c e,
         evs !! i = Some (Event c (Some e)) -> P c ->
         r = Some e /\ S i = length evs).


(** The calls of the block phase, in the order of the source: [process],
    the pre-parse hooks in list order, the block parser. *)
Definition block_phase_calls (md : Markdown) (s : string) : list extcall :=
  CProcess s :: map CBeforeParse (seq 0 (length (before_parse_hooks md)))
  ++ [CBlockParse].

(** ** Post-render hooks as a fold *)

(** A left-to-right fold of the hooks over the result: each hook gets what
    the one before returned; an exception ends the chain. *)
Definition fold_hooks (hooks : list render_hook) (result : value) (st : BlockState)
  : outcome value * BlockState :=
  fold_left
    (fun acc h =>
       match acc with
       | (Ok r, st) => h r st
       | (Raise e, st) => (Raise e, st)
       end)
    hooks (Ok result, st).

(** [chained hooks i r st evs r']: starting with [r], hook number [i + k]
    was called on what hook number [i + k - 1] returned; [evs] are these
    calls, all returned, and the last one returned [r']. *)
Inductive chained : list render_hook -> nat -> value -> BlockState ->
                    list event -> value -> Prop :=
| chained_nil i r st :
    chained [] i r st [] r
| chained_cons h hooks i r st r1 st1 evs r' :
    h r st = (Ok r1, st1) ->
    chained hooks (S i) r1 st1 evs r' ->
    chained (h :: hooks) i r st (Event (CAfterRender i r) None :: evs) r'.

(** ** A small instance

    The collaborators of the scenario in section 8 of the specification:
    a block parser that makes one paragraph of the source, an inline parser
    that makes one text token of a span, no renderer. *)

(** Modelled from the spec: [BlockState] and its [process] method are in
    core.py, which is not part of the sources at hand.  Section 6: [parse]
    "mutates state.tokens in place from whatever raw source was previously
    loaded into state via a process(source) operation"; the factory
    produces "a fresh Parse State". *)
Definition demo_state_cls : StateClass :=
  {| new_state := {| st_src := ""; st_tokens := []; st_env := ∅ |};
     process := fun s st =>
       (Ok tt, {| st_src := s; st_tokens := st_tokens st; st_env := st_env st |}) |}.

(** Modelled from the spec: the block parser is in block_parser.py, which
    is not part of the sources at hand.  This is the "trivial Block Engine"
    of the scenario of section 8: its [parse] makes one paragraph token of
    the loaded source and appends it to [state.tokens]. *)
Definition demo_block : BlockParser :=
  {| state_cls := demo_state_cls;
     block_parse := fun st =>
       (Ok tt, set_tokens (st_tokens st ++ [Token "paragraph" None (Some (st_src st)) []]) st) |}.

Definition demo_inline (text : string) (env : gmap string value)
  : outcome (list token) * gmap string value :=
  (Ok [Token "text" None None [("value", text)]], env).

Definition demo_md : Markdown :=
  {| renderer := None;
     block := demo_block;
     inline := demo_inline;
     before_parse_hooks := [];
     before_render_hooks := [];
     after_render_hooks := [] |}.

Definition demo_world : world := World (new_state demo_state_cls) [].

(** A state whose tokens are given. *)
Definition world_of (tokens : list token) : world :=
  World (set_tokens tokens (new_state demo_state_cls)) [].

(** A block quote of two paragraphs, followed by a paragraph. *)
Definition demo_tokens : list token :=
  [Token "block_quote"
     (Some [Token "paragraph" None (Some " a ") [];
            Token "paragraph" None (Some "b") []])
     None [];
   Token "paragraph" None (Some "c") []].

Definition demo_tokens_resolved : list token :=
  [Token "block_quote"
     (Some [Token "paragraph" (Some [Token "text" None None [("value", "a")]]) None [];
            Token "paragraph" (Some [Token "text" None None [("value", "b")]]) None []])
     None [];
   Token "paragraph" (Some [Token "text" None None [("value", "c")]]) None []].

(** A tree in which every token has ['children']. *)
Definition demo_resolved : list token :=
  [Token "paragraph" (Some [Token "text" (Some []) None [("value", "a")]]) None []].

(** A token with neither ['children'] nor ['text']. *)
Definition demo_blank_line : token := Token "blank_line" None None [].



(** A pre-parse hook that notes in the environment how many tokens it
    sees. *)
Definition hook_count_tokens : hook :=
  fun st =>
    (Ok tt, set_env (<["seen" := VNum (Z.of_nat (length (st_tokens st)))]> (st_env st)) st).

Definition with_before_parse (hooks : list hook) (md : Markdown) : Markdown :=
  {| renderer := renderer md;
     block := block md;
     inline := inline md;
     before_parse_hooks := hooks;
     before_render_hooks := before_render_hooks md;
     after_render_hooks := after_render_hooks md |}.




(** The instance with the token-counting pre-parse hook, and the world
    its run on "hello world" ends in. *)
Definition demo_counting_md : Markdown :=
  with_before_parse [hook_count_tokens] demo_md.

Definition demo_counting_result : list token :=
  [Token "paragraph" (Some [Token "text" None None [("value", "hello world")]]) None []].

Definition demo_counting_world : world :=
  World {| st_src := "hello world" +:+ Str.nl;
           st_tokens := demo_counting_result;
           st_env := {["seen" := VNum 0]} |}
    [Event (CProcess ("hello world" +:+ Str.nl)) None;
     Event (CBeforeParse 0) None;
     Event CBlockParse None;
     Event (CInline "hello world" {["seen" := VNum 0]}) None].

(** The scenario of two post-render hooks: the first wraps the result, the
    second counts the tokens of a wrapped result (and fails on anything
    else). *)
Definition hook_wrap : render_hook := fun result st => (Ok (VBox result), st).

Definition hook_count : render_hook :=
  fun result st =>
    match result with
    | VBox (VTokens tokens) => (Ok (VNum (Z.of_nat (length tokens))), st)
    | _ => (Raise (Exception "not wrapped"), st)
    end.

Definition demo_chain_md : Markdown :=
  {| renderer := None;
     block := demo_block;
     inline := demo_inline;
     before_parse_hooks := [];
     before_render_hooks := [];
     after_render_hooks := [hook_wrap; hook_count] |}.

Definition demo_chain_state : BlockState :=
  {| st_src := "hello world" +:+ Str.nl;
     st_tokens := demo_counting_result;
     st_env := ∅ |}.

Definition demo_chain_rendered : world :=
  World demo_chain_state
    [Event (CProcess ("hello world" +:+ Str.nl)) None;
     Event CBlockParse None;
     Event (CInline "hello world" ∅) None].

Definition demo_chain_world : world :=
  World demo_chain_state
    (w_log demo_chain_rendered
     ++ [Event (CAfterRender 0 (VTokens demo_counting_result)) None;
         Event (CAfterRender 1 (VBox (VTokens demo_counting_result))) None]).

(** A host on which no file can be opened, and one whose files hold
    bytes that do not decode. *)
Definition host_no_file : Host :=
  {| open_rb := fun filepath => Raise (IOError filepath);
     decode := fun encoding _ => Raise (UnicodeDecodeError encoding) |}.

Definition host_bad_bytes : Host :=
  {| open_rb := fun _ => Ok [Byte.xff];
     decode := fun encoding _ => Raise (UnicodeDecodeError encoding) |}.

(** ** More vocabulary *)

(** A text that neither starts nor ends with whitespace. *)
Definition stripped (text : string) : Prop :=
  (forall c, head (Str.chars text) = Some c -> Str.isspace c = false)
  /\ (forall c, last (Str.chars text) = Some c -> Str.isspace c = false).

(** In [evs], every text handed to the inline parser is stripped. *)
Definition inline_texts_stripped (r : option exn) (evs : list event) : Prop :=
  Forall (fun ev => match ev_call ev with
                    | CInline text _ => stripped text
                    | _ => True
                    end) evs.



(** A token with both ['children'] and ['text']. *)
Definition demo_both : token :=
  Token "list_item" (Some [Token "paragraph" None (Some "x") []]) (Some "kept") [].


(** ** Consumers of the generator *)

(** [k] calls of [next], fewer if the generator stops before: the tokens
    yielded and the generator as it is left. *)
Fixpoint gen_take (k : nat) (g : generator) (w : world)
  : outcome (list token * generator) * world :=
  match k with
  | 0 => (Ok ([], g), w)
  | S k' =>
      match gen_next g w with
      | (Ok (Some (tok, g')), w') =>
          match gen_take k' g' w' with
          | (Ok (l, g''), w'') => (Ok (tok :: l, g''), w'')
          | (Raise e, w'') => (Raise e, w'')
          end
      | (Ok None, w') => (Ok ([], exhausted), w')
      | (Raise e, w') => (Raise e, w')
      end
  end.

(** A renderer that never calls [next] on the generator it is given. *)
Inductive never_pulls : rprog -> Prop :=
| never_pulls_return v : never_pulls (RReturn v)
| never_pulls_raise e : never_pulls (RRaise e)
| never_pulls_state k :
    (forall st, never_pulls (snd (k st))) -> never_pulls (RState k).

(** A renderer that returns the list of the tokens it is given:
<<
    def renderer(data, state):
        return list(data)
>>
    It looks at the state for the number of tokens to expect and pulls
    until the generator stops. *)
Fixpoint collect (fuel : nat) (acc : list token) : rprog :=
  match fuel with
  | 0 => RReturn (VTokens acc)
  | S fuel' =>
      RNext (fun o =>
               match o with
               | Ok (Some tok) => collect fuel' (acc ++ [tok])
               | Ok None => RReturn (VTokens acc)
               | Raise e => RRaise e
               end)
  end.

Definition list_renderer : rprog :=
  RState (fun st => (st, collect (S (length (st_tokens st))) [])).

Definition with_renderer (r : option rprog) (md : Markdown) : Markdown :=
  {| renderer := r;
     block := block md;
     inline := inline md;
     before_parse_hooks := before_parse_hooks md;
     before_render_hooks := before_render_hooks md;
     after_render_hooks := after_render_hooks md |}.

(** A renderer that returns at once, without looking at the tokens. *)
Definition demo_lazy_md : Markdown := with_renderer (Some (RReturn (VStr ""))) demo_md.

(** ** Construction and plugins *)

(** A plugin is called with the instance, [plugin(self)]: it changes the
    instance (registers hooks, installs rules) or raises. *)
Definition Plugin : Type := Markdown -> outcome unit * Markdown.

(** [use(self, plugin)] *)
Definition use (plugin : Plugin) (md : Markdown) : outcome unit * Markdown :=
  plugin md.

(** [for plugin in plugins: plugin(self)] *)
Fixpoint run_plugins (plugins : list Plugin) (md : Markdown) : outcome unit * Markdown :=
  match plugins with
  | [] => (Ok tt, md)
  | plugin :: rest =>
      match plugin md with
      | (Ok _, md') => run_plugins rest md'
      | (Raise e, md') => (Raise e, md')
      end
  end.

(** [BlockParser()] and [InlineParser()], what [__init__] takes when it is
    given no block parser and no inline parser. *)
Record Defaults : Type := {
  default_block : BlockParser;
  default_inline : string -> gmap string value -> outcome (list token) * gmap string value
}.

(** [__init__(self, renderer=None, block=None, inline=None, plugins=None)] *)
Definition __init__ (defaults : Defaults) (renderer : option rprog)
    (block : option BlockParser)
    (inline : option (string -> gmap string value
                      -> outcome (list token) * gmap string value))
    (plugins : option (list Plugin)) : outcome unit * Markdown :=
  let block := match block with
               | None => default_block defaults
               | Some b => b
               end in
  let inline := match inline with
                | None => default_inline defaults
                | Some i => i
                end in
  let self := {| renderer := renderer;
                 block := block;
                 inline := inline;
                 before_parse_hooks := [];
                 before_render_hooks := [];
                 after_render_hooks := [] |} in
  match plugins with
  | Some (plugin :: rest) => run_plugins (plugin :: rest) self
  | _ => (Ok tt, self)
  end.

(** The calls of hooks, and the calls of the rendering stage. *)
Definition is_hook_call (c : extcall) : bool :=
  match c with
  | CBeforeParse _ | CBeforeRender _ | CAfterRender _ _ => true
  | _ => false
  end.

Definition is_render_call (c : extcall) : bool :=
  match c with
  | CInline _ _ | CRenderer => true
  | _ => false
  end.

Definition no_hook_call (r : option exn) (evs : list event) : Prop :=
  Forall (fun ev => is_hook_call (ev_call ev) = false) evs.

Definition only_render_calls (r : option exn) (evs : list event) : Prop :=
  Forall (fun ev => is_render_call (ev_call ev) = true) evs.

Definition demo_defaults : Defaults :=
  {| default_block := demo_block; default_inline := demo_inline |}.

(** A plugin that registers a pre-parse hook, and one that fails. *)
Definition plugin_register (h : hook) : Plugin :=
  fun md => (Ok tt, with_before_parse (before_parse_hooks md ++ [h]) md).

Definition plugin_boom : Plugin := fun md => (Raise (Exception "plugin"), md).

(** A host with one readable file, and a state whose environment is shared
    with earlier documents. *)
Definition host_one_file : Host :=
  {| open_rb := fun _ => Ok [Byte.x68; Byte.x69];
     decode := fun _ _ => Ok "hi" |}.

Definition demo_shared_state : BlockState :=
  {| st_src := "";
     st_tokens := [];
     st_env := {["ref_links" := VStr "shared"; "__file__" := VStr "old.md"]} |}.

(** The calls that come before the rendering stage, all returned. *)
Definition calls_before_rendering (md : Markdown) (s : string) : list event :=
  map (fun c => Event c None) (block_phase_calls md s)
  ++ map (fun i => Event (CBeforeRender i) None)
       (seq 0 (length (before_render_hooks md))).

(** ** What resolution installs *)

(** [installs md env tok tok' env']: [tok'] is what becomes of [tok] when
    the inline parser of [md] is the one that is asked, starting in the
    environment [env] and ending in [env'].  A token with ['text'] and no
    ['children'] gets as its ['children'] the very list that the inline
    parser returns for its stripped text in the environment of that moment,
    and loses ['text']; a token with ['children'] gets its children
    resolved, from left to right, each in the environment the one before
    left; any other token is as it was. *)
Inductive installs (md : Markdown)
  : gmap string value -> token -> token -> gmap string value -> Prop :=
| installs_children env ty cs cs' tx attrs env' :
    installs_all md env cs cs' env' ->
    installs md env (Token ty (Some cs) tx attrs) (Token ty (Some cs') tx attrs) env'
| installs_text env ty text inl attrs env' :
    inline md (Str.strip text) env = (Ok inl, env') ->
    installs md env (Token ty None (Some text) attrs) (Token ty (Some inl) None attrs) env'
| installs_plain env ty attrs :
    installs md env (Token ty None None attrs) (Token ty None None attrs) env
with installs_all (md : Markdown)
  : gmap string value -> list token -> list token -> gmap string value -> Prop :=
| installs_nil env :
    installs_all md env [] [] env
| installs_cons env tok tok' env1 toks toks' env2 :
    installs md env tok tok' env1 ->
    installs_all md env1 toks toks' env2 ->
    installs_all md env (tok :: toks) (tok' :: toks') env2.

(** An inline parser that numbers the spans it is given: it keeps a
    counter in the environment, so what it returns depends on the calls
    made before. *)
Definition demo_inline_numbering (text : string) (env : gmap string value)
  : outcome (list token) * gmap string value :=
  let n := match env !! "spans" with
           | Some (VNum n) => n
           | _ => 0%Z
           end in
  (Ok [Token "text" None None [("value", text)];
       Token "span_number" None (Some "  not resolved  ") [("n", if (n =? 0)%Z then "0" else "later")]],
   <["spans" := VNum (n + 1)]> env).

Definition demo_numbering_md : Markdown :=
  {| renderer := None;
     block := demo_block;
     inline := demo_inline_numbering;
     before_parse_hooks := [];
     before_render_hooks := [];
     after_render_hooks := [] |}.

Definition demo_numbered : list token :=
  [Token "block_quote"
     (Some [Token "paragraph"
              (Some [Token "text" None None [("value", "a")];
                     Token "span_number" None (Some "  not resolved  ") [("n", "0")]])
              None [];
            Token "paragraph"
              (Some [Token "text" None None [("value", "b")];
                     Token "span_number" None (Some "  not resolved  ") [("n", "later")]])
              None []])
     None [];
   Token "paragraph"
     (Some [Token "text" None None [("value", "c")];
            Token "span_number" None (Some "  not resolved  ") [("n", "later")]])
     None []].

Definition demo_numbered_world : world :=
  World {| st_src := ""; st_tokens := demo_numbered; st_env := {["spans" := VNum 3]} |}
    [Event (CInline "a" ∅) None;
     Event (CInline "b" {["spans" := VNum 1]}) None;
     Event (CInline "c" {["spans" := VNum 2]}) None].

(** ** What the hooks of a stage see *)

(** [ran_hooks stage hooks i st evs o st']: the hooks of the list were
    called one after the other, in list order: the first on [st], every
    other one on the state as the hook before it left it.  [evs] are these
    calls, numbered from [i].  The run ended with [o] in the state [st']:
    [Ok] when every hook returned, else the exception of the first hook
    that raised, after which no hook was called. *)
Inductive ran_hooks (stage : nat -> extcall)
  : list hook -> nat -> BlockState -> list event -> outcome unit -> BlockState -> Prop :=
| ran_hooks_nil i st :
    ran_hooks stage [] i st [] (Ok tt) st
| ran_hooks_ok h hooks i st st1 evs o st' :
    h st = (Ok tt, st1) ->
    ran_hooks stage hooks (S i) st1 evs o st' ->
    ran_hooks stage (h :: hooks) i st (Event (stage i) None :: evs) o st'
| ran_hooks_raise h hooks i st e st1 :
    h st = (Raise e, st1) ->
    ran_hooks stage (h :: hooks) i st [Event (stage i) (Some e)] (Raise e) st1.

(** A pre-parse hook that appends a token of its own to [state.tokens]. *)
Definition hook_push_token : hook :=
  fun st => (Ok tt, set_tokens (st_tokens st ++ [Token "synthetic" None (Some "extra") []]) st).

(** Two pre-parse hooks that do not commute: the second counts what the
    first has pushed. *)
Definition demo_two_hooks_md : Markdown :=
  with_before_parse [hook_push_token; hook_count_tokens] demo_md.

Definition demo_two_hooks_result : list token :=
  [Token "synthetic" (Some [Token "text" None None [("value", "extra")]]) None [];
   Token "paragraph" (Some [Token "text" None None [("value", "hello world")]]) None []].

Definition demo_two_hooks_state : BlockState :=
  {| st_src := "hello world" +:+ Str.nl;
     st_tokens := demo_two_hooks_result;
     st_env := {["seen" := VNum 1]} |}.

Definition demo_two_hooks_world : world :=
  World demo_two_hooks_state
    [Event (CProcess ("hello world" +:+ Str.nl)) None;
     Event (CBeforeParse 0) None;
     Event (CBeforeParse 1) None;
     Event CBlockParse None;
     Event (CInline "extra" {["seen" := VNum 1]}) None;
     Event (CInline "hello world" {["seen" := VNum 1]}) None].

(** ** Renderers and the exceptions of the inline parser *)


(** In [evs], a call that raised is the last one, and the computation
    raised what it raised. *)
Definition raises_last (r : option exn) (evs : list event) : Prop :=
  forall i c e,
    evs !! i = Some (Event c (Some e)) -> r = Some e /\ S i = length evs.

(** In [evs], an inline call that raised is followed by the return of the
    renderer, which raised the same exception, and by nothing else; and the
    computation raised that exception. *)
Definition inline_through (r : option exn) (evs : list event) : Prop :=
  forall i text env e,
    evs !! i = Some (Event (CInline text env) (Some e)) ->
    r = Some e /\ evs = take (S i) evs ++ [Event CRenderer (Some e)].




(** A hook that writes one entry of the environment. *)
Definition hook_set (key : string) (v : value) : hook :=
  fun st => (Ok tt, set_env (<[key := v]> (st_env st)) st).

(** An instance with two hooks at every stage, none of which commute. *)
Definition demo_full_md : Markdown :=
  {| renderer := None;
     block := demo_block;
     inline := demo_inline;
     before_parse_hooks := [hook_push_token; hook_count_tokens];
     before_render_hooks := [hook_set "stage" (VStr "first"); hook_set "stage" (VStr "second")];
     after_render_hooks := [hook_wrap; hook_count] |}.

Definition demo_full_env : gmap string value :=
  {["seen" := VNum 1; "stage" := VStr "second"]}.

Definition demo_full_state : BlockState :=
  {| st_src := "hello world" +:+ Str.nl;
     st_tokens := demo_two_hooks_result;
     st_env := demo_full_env |}.

Definition demo_full_world : world :=
  World demo_full_state
    [Event (CProcess ("hello world" +:+ Str.nl)) None;
     Event (CBeforeParse 0) None;
     Event (CBeforeParse 1) None;
     Event CBlockParse None;
     Event (CBeforeRender 0) None;
     Event (CBeforeRender 1) None;
     Event (CInline "extra" demo_full_env) None;
     Event (CInline "hello world" demo_full_env) None;
     Event (CAfterRender 0 (VTokens demo_two_hooks_result)) None;
     Event (CAfterRender 1 (VBox (VTokens demo_two_hooks_result))) None].

(** * Properties *)

Ltac tc := try typeclasses eauto.

(** ** Strings *)
Section StrFacts.

Import Str.

Lemma prefix_empty (s : string) : String.prefix "" s = true.
Proof. by destruct s. Qed.

Lemma chars_app (s1 s2 : string) : chars (s1 +:+ s2) = chars s1 ++ chars s2.
Proof. induction s1 as [|c s1 IH]; simpl; [done | by rewrite IH]. Qed.

(** Replacing a single character by another is a map over the characters. *)
Lemma chars_replace_cr (s : string) :
  chars (replace cr nl s) = (fun c => if Ascii.eqb c CR then LF else c) <$> chars s.
Proof.
  unfold replace. induction s as [|c s IH]; [done|].
  cbn [replace_from cr String.prefix].
  destruct (ascii_dec CR c) as [<-|Hne].
  - rewrite prefix_empty. cbn. by rewrite chars_app, IH.
  - cbn. rewrite IH. destruct (Ascii.eqb_spec c CR) as [->|_]; [done|done].
Qed.

(** The two equations of [replace crlf nl]. *)
Lemma replace_crlf_hit (s : string) :
  replace crlf nl (String CR (String LF s)) = String LF (replace crlf nl s).
Proof.
  unfold replace. cbn [replace_from crlf String.prefix].
  destruct (ascii_dec CR CR) as [_|]; [|done].
  destruct (ascii_dec LF LF) as [_|]; [|done].
  rewrite prefix_empty. cbn. done.
Qed.

Lemma replace_crlf_miss (c : ascii) (s : string) :
  String.prefix crlf (String c s) = false ->
  replace crlf nl (String c s) = String c (replace crlf nl s).
Proof. unfold replace. cbn [replace_from]. by intros ->. Qed.

Lemma prefix_crlf (c : ascii) (s : string) :
  String.prefix crlf (String c s) = true -> c = CR /\ exists s', s = String LF s'.
Proof.
  cbn [crlf String.prefix]. destruct (ascii_dec CR c) as [<-|]; [|done].
  destruct s as [|c2 s]; [done|]. cbn [String.prefix].
  destruct (ascii_dec LF c2) as [<-|]; [|done]. eauto.
Qed.

(** Induction two characters at a time, as [replace crlf nl] proceeds. *)
Lemma string_ind2 (P : string -> Prop) :
  P "" ->
  (forall c, P (String c "")) ->
  (forall c1 c2 s, P s -> P (String c2 s) -> P (String c1 (String c2 s))) ->
  forall s, P s.
Proof.
  intros H0 H1 H2 s.
  assert (P s /\ forall c, P (String c s)) as [? _]; [|done].
  induction s as [|c s [IH1 IH2]]; split; auto.
Qed.

Lemma endswith_nl_last (s : string) :
  endswith s nl = true <-> last_char s = Some LF.
Proof.
  unfold last_char. induction s as [|c s IH]; cbn [endswith chars].
  - cbn. split; discriminate.
  - destruct s as [|c2 s].
    + cbn. rewrite orb_false_r.
      destruct (Ascii.eqb_spec c LF) as [->|Hne]; split; try done.
      intros [= ->]. done.
    + replace (String.eqb (String c (String c2 s)) nl) with false.
      2:{ cbn. by destruct (Ascii.eqb c LF). }
      rewrite orb_false_l, IH. done.
Qed.

Lemma last_char_app_nl (s : string) : last_char (s +:+ nl) = Some LF.
Proof. unfold last_char. rewrite chars_app. cbn. by rewrite last_snoc. Qed.

Lemma last_char_replace_cr (s : string) :
  last_char s = Some LF -> last_char (replace cr nl s) = Some LF.
Proof.
  unfold last_char. rewrite chars_replace_cr.
  intros H. rewrite fmap_last, H. done.
Qed.

Lemma last_char_replace_crlf (s : string) :
  last_char s = Some LF -> last_char (replace crlf nl s) = Some LF.
Proof.
  unfold last_char. induction s as [|c|c1 c2 s IH1 IH2] using string_ind2.
  - done.
  - cbn. intros [= ->]. done.
  - intros H.
    destruct (String.prefix crlf (String c1 (String c2 s))) eqn:Hp.
    + apply prefix_crlf in Hp as [-> [s' [= -> ->]]].
      rewrite replace_crlf_hit. cbn [chars] in *.
      destruct s' as [|c3 s'].
      * done.
      * rewrite last_cons. rewrite IH1; [done|].
        by rewrite !last_cons_cons in H.
    + rewrite replace_crlf_miss by done. cbn [chars].
      rewrite last_cons. rewrite IH2; [done|].
      cbn [chars] in H. by rewrite last_cons_cons in H.
Qed.

Lemma no_cr_replace_cr (s : string) : CR ∉ chars (replace cr nl s).
Proof.
  rewrite chars_replace_cr. intros (c & Hc & _)%list_elem_of_fmap.
  destruct (Ascii.eqb_spec c CR); [discriminate|]. congruence.
Qed.

Lemma trailing_newlines_le (s : string) : trailing_newlines s <= String.length s.
Proof.
  induction s as [|c s IH]; cbn; [lia|].
  destruct (Ascii.eqb c LF && _); lia.
Qed.

Lemma trailing_newlines_pos (s : string) :
  last_char s = Some LF -> 1 <= trailing_newlines s.
Proof.
  unfold last_char. induction s as [|c s IH]; [done|].
  cbn [chars trailing_newlines]. destruct s as [|c2 s].
  - cbn. intros [= ->]. cbn. lia.
  - cbn [chars]. rewrite last_cons_cons. intros H.
    assert (1 <= trailing_newlines (String c2 s)) by (by apply IH).
    destruct (Ascii.eqb c LF && _); lia.
Qed.

End StrFacts.

(** ** Normalisation *)

Lemma normalize_unfold (s : string) :
  normalize s =
  if Str.endswith (unify_newlines s) Str.nl
  then unify_newlines s
  else unify_newlines s +:+ Str.nl.
Proof. unfold normalize, unify_newlines. by destruct (Str.endswith _ _). Qed.

Lemma unify_newlines_keeps_last (s : string) :
  Str.endswith s Str.nl = true -> Str.endswith (unify_newlines s) Str.nl = true.
Proof.
  rewrite !endswith_nl_last. intros H. unfold unify_newlines.
  by apply last_char_replace_cr, last_char_replace_crlf.
Qed.

(** C4, as the code has it: the normalised text has no carriage return and
    ends with a newline; one newline is appended when the text (after the
    line separators are unified) does not end with one, which happens only
    if the original did not end with one; otherwise nothing is appended and
    nothing is removed, so trailing newlines are at least one, not exactly
    one. *)
Theorem normalize_spec (s : string) :
  (Str.CR ∉ Str.chars (normalize s))
  /\ Str.endswith (normalize s) Str.nl = true
  /\ 1 <= Str.trailing_newlines (normalize s)
  /\ ((Str.endswith (unify_newlines s) Str.nl = true
       /\ normalize s = unify_newlines s)
      \/ (Str.endswith (unify_newlines s) Str.nl = false
          /\ Str.endswith s Str.nl = false
          /\ normalize s = unify_newlines s +:+ Str.nl)).
Proof.
  assert (Hlast : Str.last_char (normalize s) = Some Str.LF).
  { rewrite normalize_unfold.
    destruct (Str.endswith (unify_newlines s) Str.nl) eqn:E.
    - by apply endswith_nl_last.
    - apply last_char_app_nl. }
  split; [|split; [|split]].
  - rewrite normalize_unfold.
    destruct (Str.endswith _ _).
    + apply no_cr_replace_cr.
    + rewrite chars_app. intros [H|H]%elem_of_app.
      * by apply no_cr_replace_cr in H.
      * apply list_elem_of_singleton in H. discriminate.
  - by apply endswith_nl_last.
  - by apply trailing_newlines_pos.
  - rewrite normalize_unfold.
    destruct (Str.endswith (unify_newlines s) Str.nl) eqn:E; [by left|right].
    split; [done|split; [|done]].
    destruct (Str.endswith s Str.nl) eqn:E'; [|done].
    apply unify_newlines_keeps_last in E'. congruence.
Qed.

(** C4, as stated, fails: a text that ends with a blank line keeps its two
    newlines. *)
Lemma normalize_two_trailing_newlines :
  normalize (String "a" (String Str.LF (String Str.LF "")))
  = String "a" (String Str.LF (String Str.LF ""))
  /\ Str.trailing_newlines (normalize (String "a" (String Str.LF (String Str.LF "")))) = 2.
Proof. split; reflexivity. Qed.

(** ** Induction principles *)

Lemma token_ind' (P : token -> Prop) :
  (forall ty cs tx attrs, Forall P cs -> P (Token ty (Some cs) tx attrs)) ->
  (forall ty tx attrs, P (Token ty None tx attrs)) ->
  forall t, P t.
Proof.
  intros Hc Hn. fix IH 1. intros [ty [cs|] tx attrs]; [|apply Hn].
  apply Hc. induction cs as [|c cs IHcs]; constructor; [apply IH | apply IHcs].
Qed.

Lemma generator_ind' (P : generator -> Prop) :
  (forall next,
      (forall w tok g' w', next w = (Ok (Some (tok, g')), w') -> P g') ->
      P (Gen next)) ->
  forall g, P g.
Proof.
  intros H. fix IH 1. intros [next]. apply H.
  assert (Hm : forall w, match next w with
                         | (Ok (Some (_, g')), _) => P g'
                         | _ => True
                         end).
  { intros w. destruct (next w) as [[[[tok g']|]|e] w']; [apply IH|exact I|exact I]. }
  intros w tok g' w' E. specialize (Hm w). by rewrite E in Hm.
Qed.

Lemma rprog_ind' (P : rprog -> Prop) :
  (forall v, P (RReturn v)) ->
  (forall e, P (RRaise e)) ->
  (forall k, (forall o, P (k o)) -> P (RNext k)) ->
  (forall k, (forall st, P (snd (k st))) -> P (RState k)) ->
  forall p, P p.
Proof.
  intros Hv He Hn Hs. fix IH 1. intros [v|e|k|k].
  - apply Hv.
  - apply He.
  - apply Hn. intros o. apply IH.
  - apply Hs. intros st. destruct (k st) as [st' p']. apply IH.
Qed.

(** ** The resolver, one token at a time *)
Section ResolverFacts.

Variable md : Markdown.

Lemma resolve_token_children ty cs tx attrs :
  resolve_token md (Token ty (Some cs) tx attrs)
  = (children <- py_list (_iter_render md cs) ;;
     ret (Token ty (Some children) tx attrs)).
Proof. reflexivity. Qed.

Lemma gen_next_iter_cons tok rest :
  gen_next (_iter_render md (tok :: rest))
  = (tok' <- resolve_token md tok ;; ret (Some (tok', _iter_render md rest))).
Proof. reflexivity. Qed.

Lemma py_list_iter_nil w : py_list (_iter_render md []) w = (Ok [], w).
Proof. reflexivity. Qed.

Lemma py_list_iter_cons tok rest w :
  py_list (_iter_render md (tok :: rest)) w
  = match resolve_token md tok w with
    | (Ok tok', w') =>
        match py_list (_iter_render md rest) w' with
        | (Ok l, w'') => (Ok (tok' :: l), w'')
        | (Raise e, w'') => (Raise e, w'')
        end
    | (Raise e, w') => (Raise e, w')
    end.
Proof.
  cbn [_iter_render py_list]. unfold bind, ret.
  by destruct (resolve_token md tok w) as [[tok'|e] w'].
Qed.

Lemma inline_calls_refl w : inline_calls w w [].
Proof.
  repeat split. exists []. split; [by rewrite app_nil_r | constructor].
Qed.

Lemma inline_calls_trans w1 w2 w3 texts1 texts2 :
  inline_calls w1 w2 texts1 -> inline_calls w2 w3 texts2 ->
  inline_calls w1 w3 (texts1 ++ texts2).
Proof.
  intros (Hs1 & Ht1 & evs1 & Hl1 & Hf1) (Hs2 & Ht2 & evs2 & Hl2 & Hf2).
  split; [congruence|]. split; [congruence|].
  exists (evs1 ++ evs2). split.
  - by rewrite Hl2, Hl1, app_assoc.
  - by apply Forall2_app.
Qed.

Lemma call_inline_ok text w inl w' :
  call_inline md text w = (Ok inl, w') ->
  inline md text (st_env (w_state w)) = (Ok inl, st_env (w_state w'))
  /\ w_log w' = w_log w ++ [Event (CInline text (st_env (w_state w))) None]
  /\ inline_calls w w' [text].
Proof.
  unfold call_inline.
  destruct (inline md text (st_env (w_state w))) as [[l|e] env'] eqn:E;
    intros [= <- <-]; cbn.
  split; [done|]. split; [done|].
  repeat split. eexists. split; [done|].
  constructor; [by eexists | constructor].
Qed.

Lemma py_list_iter_ok_aux toks :
  Forall (resolve_token_post md) toks ->
  forall w out w',
    py_list (_iter_render md toks) w = (Ok out, w') ->
    Forall2 Resolves toks out /\ inline_calls w w' (flat_map pending_texts toks).
Proof.
  induction 1 as [|tok rest Htok _ IH]; intros w out w'.
  - rewrite py_list_iter_nil. intros [= <- <-].
    split; [constructor | apply inline_calls_refl].
  - rewrite py_list_iter_cons.
    destruct (resolve_token md tok w) as [[tok'|e] w1] eqn:E1; [|done].
    destruct (py_list (_iter_render md rest) w1) as [[l|e] w2] eqn:E2; [|done].
    intros [= <- <-].
    destruct (Htok _ _ _ E1) as [Hr Hc]. destruct (IH _ _ _ E2) as [Hrs Hcs].
    split; [by constructor|]. cbn [flat_map]. by eapply inline_calls_trans.
Qed.

Lemma resolve_token_ok tok : resolve_token_post md tok.
Proof.
  induction tok as [ty cs tx attrs IH|ty [text|] attrs] using token_ind';
    intros w tok' w'.
  - rewrite resolve_token_children. unfold bind, ret.
    destruct (py_list (_iter_render md cs) w) as [[l|e] w1] eqn:E; [|done].
    intros [= <- <-].
    destruct (py_list_iter_ok_aux _ IH _ _ _ E) as [Hr Hc].
    split; [by constructor | done].
  - cbn [resolve_token]. unfold bind, ret.
    destruct (call_inline md (Str.strip text) w) as [[l|e] w1] eqn:E; [|done].
    intros [= <- <-]. apply call_inline_ok in E as (_ & _ & Hc).
    split; [constructor | done].
  - cbn [resolve_token]. unfold ret. intros [= <- <-].
    split; [constructor | apply inline_calls_refl].
Qed.

Lemma py_list_iter_ok toks w out w' :
  py_list (_iter_render md toks) w = (Ok out, w') ->
  Forall2 Resolves toks out /\ inline_calls w w' (flat_map pending_texts toks).
Proof.
  apply py_list_iter_ok_aux, Forall_forall. intros tok _. apply resolve_token_ok.
Qed.

End ResolverFacts.

(** ** Text-bearing tokens *)

(** C7: for a token that carries ['text'] and no ['children'], [next] calls
    the inline parser once, on the stripped text (empty or not) and the
    state's environment, and yields the token with ['text'] removed and
    ['children'] set to what the inline parser returned; the type and the
    other attributes are untouched, as are the state's tokens and source;
    the log grows by that one call. *)
Theorem text_token_resolution md ty text attrs rest w inl env' :
  inline md (Str.strip text) (st_env (w_state w)) = (Ok inl, env') ->
  gen_next (_iter_render md (Token ty None (Some text) attrs :: rest)) w
  = (Ok (Some (Token ty (Some inl) None attrs, _iter_render md rest)),
     World (set_env env' (w_state w))
           (w_log w ++ [Event (CInline (Str.strip text) (st_env (w_state w))) None])).
Proof.
  intros E. rewrite gen_next_iter_cons. cbn [resolve_token].
  unfold bind, ret, call_inline. by rewrite E.
Qed.

Lemma text_token_resolution_witness :
  inline demo_md (Str.strip "  ") (st_env (w_state demo_world)) = (Ok [Token "text" None None [("value", "")]], ∅)
  /\ gen_next (_iter_render demo_md [Token "paragraph" None (Some "  ") []]) demo_world
     = (Ok (Some (Token "paragraph" (Some [Token "text" None None [("value", "")]]) None [],
                  _iter_render demo_md [])),
        World (set_env ∅ (w_state demo_world))
              (w_log demo_world ++ [Event (CInline (Str.strip "  ") (st_env (w_state demo_world))) None])).
Proof.
  split; [reflexivity|].
  apply (text_token_resolution demo_md "paragraph" "  " [] [] demo_world). reflexivity.
Defined.

(** ** Order of resolution *)

(** C3: when [next] yields a token, that token is the resolution of the
    first of the remaining input tokens, the inline calls for every text of
    its tree have been made and have returned (its ['children'] is a list,
    not a suspended generator), and what is left is the generator over the
    rest of the input, not yet started; so a drained generator gives the
    resolutions of the input tokens, in input order, and has made the
    inline calls of the whole tree in document order. *)
Theorem resolver_post_order md toks :
  (forall tok rest w tok' g' w',
      toks = tok :: rest ->
      gen_next (_iter_render md toks) w = (Ok (Some (tok', g')), w') ->
      g' = _iter_render md rest
      /\ Resolves tok tok'
      /\ inline_calls w w' (pending_texts tok))
  /\ (forall w out w',
         py_list (_iter_render md toks) w = (Ok out, w') ->
         Forall2 Resolves toks out
         /\ inline_calls w w' (flat_map pending_texts toks)).
Proof.
  split.
  - intros tok rest w tok' g' w' ->. rewrite gen_next_iter_cons. unfold bind, ret.
    destruct (resolve_token md tok w) as [[t|e] w1] eqn:E; [|done].
    intros [= <- <- <-]. split; [done|]. by apply (resolve_token_ok md tok).
  - intros w out w'. apply py_list_iter_ok.
Qed.

Lemma resolver_post_order_witness :
  py_list (_iter_render demo_md demo_tokens) demo_world
  = (Ok demo_tokens_resolved,
     World (new_state demo_state_cls)
       [Event (CInline "a" ∅) None; Event (CInline "b" ∅) None;
        Event (CInline "c" ∅) None])
  /\ Forall2 Resolves demo_tokens demo_tokens_resolved
  /\ inline_calls demo_world
       (World (new_state demo_state_cls)
          [Event (CInline "a" ∅) None; Event (CInline "b" ∅) None;
           Event (CInline "c" ∅) None])
       ["a"; "b"; "c"].
Proof.
  split; [reflexivity|].
  apply (proj2 (resolver_post_order demo_md demo_tokens)). reflexivity.
Defined.

(** ** Resolution in place: the tokens of the state *)
Section InPlace.

Variable md : Markdown.

Lemma py_list_in_place_nil i w :
  py_list (in_place i (_iter_render md [])) w = (Ok [], w).
Proof. reflexivity. Qed.

Lemma py_list_in_place_cons i tok rest w :
  py_list (in_place i (_iter_render md (tok :: rest))) w
  = match resolve_token md tok w with
    | (Ok tok', w') =>
        match py_list (in_place (S i) (_iter_render md rest)) (set_token i tok' w') with
        | (Ok l, w'') => (Ok (tok' :: l), w'')
        | (Raise e, w'') => (Raise e, w'')
        end
    | (Raise e, w') => (Raise e, w')
    end.
Proof.
  cbn [_iter_render in_place py_list]. unfold bind, ret.
  by destruct (resolve_token md tok w) as [[tok'|e] w'].
Qed.

Lemma set_token_tokens pre tok tok' rest w :
  st_tokens (w_state w) = pre ++ tok :: rest ->
  st_tokens (w_state (set_token (length pre) tok' w)) = (pre ++ [tok']) ++ rest.
Proof.
  intros H. cbn. rewrite H, insert_app_r_alt by lia.
  rewrite Nat.sub_diag. cbn. by rewrite <- app_assoc.
Qed.

Lemma set_token_same pre tok rest w :
  st_tokens (w_state w) = pre ++ tok :: rest ->
  set_token (length pre) tok w = w.
Proof.
  destruct w as [[src tokens env] log]. cbn. intros ->.
  unfold set_token, set_tokens. cbn. do 2 f_equal.
  apply list_insert_id. by rewrite lookup_app_r, Nat.sub_diag by lia.
Qed.

Lemma render_in_place_ok toks :
  forall pre w out w',
    st_tokens (w_state w) = pre ++ toks ->
    py_list (in_place (length pre) (_iter_render md toks)) w = (Ok out, w') ->
    Forall2 Resolves toks out
    /\ st_tokens (w_state w') = pre ++ out
    /\ st_src (w_state w') = st_src (w_state w)
    /\ exists evs, w_log w' = w_log w ++ evs
                   /\ Forall2 inline_returned evs (flat_map pending_texts toks).
Proof.
  induction toks as [|tok rest IH]; intros pre w out w' Hpre.
  - rewrite py_list_in_place_nil. intros [= <- <-].
    split; [constructor|]. split; [done|]. split; [done|].
    exists []. split; [by rewrite app_nil_r | constructor].
  - rewrite py_list_in_place_cons.
    destruct (resolve_token md tok w) as [[tok'|e] w1] eqn:E1; [|done].
    destruct (py_list _ (set_token (length pre) tok' w1)) as [[l|e] w2] eqn:E2; [|done].
    intros [= <- <-].
    destruct (resolve_token_ok md tok _ _ _ E1) as (Hr & Hs1 & Ht1 & evs1 & Hl1 & Hf1).
    assert (Hpre1 : st_tokens (w_state w1) = pre ++ tok :: rest) by congruence.
    pose proof (set_token_tokens pre tok tok' rest w1 Hpre1) as Hpre2.
    replace (S (length pre)) with (length (pre ++ [tok'])) in E2
      by (rewrite length_app; cbn; lia).
    destruct (IH _ _ _ _ Hpre2 E2) as (Hrs & Ht2 & Hs2 & evs2 & Hl2 & Hf2).
    split; [by constructor|]. split; [by rewrite Ht2, <- app_assoc|].
    split; [by rewrite Hs2|].
    exists (evs1 ++ evs2). split.
    + rewrite Hl2. cbn. by rewrite Hl1, app_assoc.
    + cbn [flat_map]. by apply Forall2_app.
Qed.

(** A settled token is yielded as it is, and nothing is called. *)
Lemma py_list_iter_settled_aux toks :
  Forall (fun tok => forall w, resolve_token md tok w = (Ok tok, w)) toks ->
  forall w, py_list (_iter_render md toks) w = (Ok toks, w).
Proof.
  induction 1 as [|tok rest Htok _ IH]; intros w; [done|].
  by rewrite py_list_iter_cons, Htok, IH.
Qed.

Lemma resolve_token_settled tok :
  settled tok -> forall w, resolve_token md tok w = (Ok tok, w).
Proof.
  induction tok as [ty cs tx attrs IH|ty tx attrs] using token_ind'; intros Hs w.
  - rewrite resolve_token_children. unfold bind, ret.
    rewrite py_list_iter_settled_aux; [done|].
    inversion Hs as [? ? ? ? Hcs|]; subst.
    rewrite Forall_forall in IH, Hcs |- *. intros t Ht. by apply IH, Hcs.
  - by inversion Hs; subst.
Qed.

Lemma render_in_place_settled toks :
  Forall settled toks ->
  forall pre w,
    st_tokens (w_state w) = pre ++ toks ->
    py_list (in_place (length pre) (_iter_render md toks)) w = (Ok toks, w).
Proof.
  induction 1 as [|tok rest Htok _ IH]; intros pre w Hpre; [done|].
  rewrite py_list_in_place_cons, resolve_token_settled by done.
  rewrite (set_token_same pre tok rest) by done.
  replace (S (length pre)) with (length (pre ++ [tok]))
    by (rewrite length_app; cbn; lia).
  rewrite IH; [done|]. by rewrite <- app_assoc.
Qed.

End InPlace.

Lemma resolved_settled tok : resolved tok -> settled tok.
Proof.
  induction tok as [ty cs tx attrs IH|ty tx attrs] using token_ind'; intros H;
    inversion H as [? ? ? Hcs]; subst.
  constructor. rewrite Forall_forall in IH, Hcs |- *. intros t Ht. by apply IH, Hcs.
Qed.

Lemma Resolves_after tok :
  at_most_one tok -> forall tok', Resolves tok tok' -> nodewise after_resolution tok tok'.
Proof.
  induction tok as [ty cs tx attrs IH|ty tx attrs] using token_ind';
    intros Hamo tok' Hr.
  - inversion Hamo as [? ? ? Hcs|]; subst.
    inversion Hr as [? ? cs' ? ? Hrs| |]; subst.
    apply nodewise_node with (cs' := cs'); [|done|].
    + repeat split; cbn; eauto.
    + clear Hamo Hr. induction Hrs as [|c c' cs cs' Hc Hrs IHrs]; [constructor|].
      inversion IH; inversion Hcs; subst. constructor; auto.
  - inversion Hr; subst; apply nodewise_leaf; unfold after_resolution; cbn.
    + split; [done|]. split; [|done]. split; eauto.
    + split; [done|]. split; [|done].
      split; [by intros []%is_Some_None|].
      by intros [[]%is_Some_None|[]%is_Some_None].
Qed.

(** ** The tree after resolution *)

Section Installs.

Variable md : Markdown.

Lemma py_list_iter_installs_aux toks :
  Forall (fun tok => forall w tok' w',
              resolve_token md tok w = (Ok tok', w') ->
              installs md (st_env (w_state w)) tok tok' (st_env (w_state w'))) toks ->
  forall w out w',
    py_list (_iter_render md toks) w = (Ok out, w') ->
    installs_all md (st_env (w_state w)) toks out (st_env (w_state w')).
Proof.
  induction 1 as [|tok rest Htok _ IH]; intros w out w'.
  - rewrite py_list_iter_nil. intros [= <- <-]. constructor.
  - rewrite py_list_iter_cons.
    destruct (resolve_token md tok w) as [[tok'|e] w1] eqn:E1; [|done].
    destruct (py_list (_iter_render md rest) w1) as [[l|e] w2] eqn:E2; [|done].
    intros [= <- <-]. econstructor; [by apply Htok | by apply IH].
Qed.

Lemma resolve_token_installs tok :
  forall w tok' w',
    resolve_token md tok w = (Ok tok', w') ->
    installs md (st_env (w_state w)) tok tok' (st_env (w_state w')).
Proof.
  induction tok as [ty cs tx attrs IH|ty [text|] attrs] using token_ind';
    intros w tok' w'.
  - rewrite resolve_token_children. unfold bind, ret.
    destruct (py_list (_iter_render md cs) w) as [[l|e] w1] eqn:E; [|done].
    intros [= <- <-]. constructor. by apply py_list_iter_installs_aux.
  - cbn [resolve_token]. unfold bind, ret.
    destruct (call_inline md (Str.strip text) w) as [[l|e] w1] eqn:E; [|done].
    intros [= <- <-]. apply call_inline_ok in E as (E & _). by constructor.
  - cbn [resolve_token]. unfold ret. intros [= <- <-]. constructor.
Qed.

Lemma render_in_place_installs toks :
  forall i w out w',
    py_list (in_place i (_iter_render md toks)) w = (Ok out, w') ->
    installs_all md (st_env (w_state w)) toks out (st_env (w_state w')).
Proof.
  induction toks as [|tok rest IH]; intros i w out w'.
  - rewrite py_list_in_place_nil. intros [= <- <-]. constructor.
  - rewrite py_list_in_place_cons.
    destruct (resolve_token md tok w) as [[tok'|e] w1] eqn:E1; [|done].
    destruct (py_list _ (set_token i tok' w1)) as [[l|e] w2] eqn:E2; [|done].
    intros [= <- <-]. econstructor.
    + by apply resolve_token_installs.
    + exact (IH _ _ _ _ E2).
Qed.

End Installs.

(** C1, as the code has it: take a state whose tokens have, all over the
    tree, at most one of ['children'] and ['text'].  Once the generator over
    them is drained, the tokens of the state are the yielded ones, no token
    of the tree has ['text'], and a token has ['children'] exactly when it
    had ['children'] or ['text'] before: a token that had neither still has
    neither.  What is installed is pinned down ([installs_all]): the
    ['children'] of a token that had ['text'] are the very list the inline
    parser returned for its stripped text, in the environment as the calls
    before it, in document order, left it; these tokens are installed as
    they are, whatever keys they have; everything else of the tree is as
    it was. *)
Theorem resolution_invariant md w out w' :
  Forall at_most_one (st_tokens (w_state w)) ->
  py_list (in_place 0 (_iter_render md (st_tokens (w_state w)))) w = (Ok out, w') ->
  st_tokens (w_state w') = out
  /\ Forall2 (nodewise after_resolution) (st_tokens (w_state w)) out
  /\ installs_all md (st_env (w_state w)) (st_tokens (w_state w)) out
       (st_env (w_state w')).
Proof.
  intros Hamo E.
  destruct (render_in_place_ok md _ [] w out w' eq_refl E) as (Hr & Ht & _).
  split; [done|]. split; [|by eapply render_in_place_installs].
  clear E Ht.
  induction Hr as [|t t' ts ts' Ht Hts IH]; [constructor|].
  inversion Hamo; subst. constructor; [by apply Resolves_after | by apply IH].
Qed.

Lemma resolution_invariant_witness :
  Forall at_most_one (st_tokens (w_state (world_of demo_tokens)))
  /\ py_list (in_place 0 (_iter_render demo_numbering_md
                            (st_tokens (w_state (world_of demo_tokens)))))
       (world_of demo_tokens)
     = (Ok demo_numbered, demo_numbered_world)
  /\ st_tokens (w_state demo_numbered_world) = demo_numbered
  /\ Forall2 (nodewise after_resolution)
       (st_tokens (w_state (world_of demo_tokens))) demo_numbered
  /\ installs_all demo_numbering_md (st_env (w_state (world_of demo_tokens)))
       (st_tokens (w_state (world_of demo_tokens))) demo_numbered
       (st_env (w_state demo_numbered_world)).
Proof.
  assert (H : Forall at_most_one (st_tokens (w_state (world_of demo_tokens)))).
  { repeat constructor. }
  assert (E : py_list (in_place 0 (_iter_render demo_numbering_md
                                     (st_tokens (w_state (world_of demo_tokens)))))
                (world_of demo_tokens)
              = (Ok demo_numbered, demo_numbered_world)).
  { vm_compute. reflexivity. }
  split; [exact H|]. split; [exact E|].
  exact (resolution_invariant demo_numbering_md (world_of demo_tokens)
           demo_numbered demo_numbered_world H E).
Defined.

(** C1, as stated, fails: a token with neither ['children'] nor ['text']
    goes through the resolver unchanged, so it has no ['children']
    afterwards. *)
Lemma bare_token_has_no_children_after_resolution :
  Forall at_most_one [demo_blank_line]
  /\ py_list (in_place 0 (_iter_render demo_md [demo_blank_line])) (world_of [demo_blank_line])
     = (Ok [demo_blank_line], world_of [demo_blank_line])
  /\ ~ Forall (fun tok => is_Some (tok_children tok)) [demo_blank_line].
Proof.
  split; [repeat constructor|]. split; [reflexivity|].
  intros H. inversion H as [|? ? [cs Hcs] _]. discriminate.
Qed.

(** ** Idempotence *)

(** C6: over a tree in which every token has ['children'] and none has
    ['text'], a drained generator gives back the very same tokens and leaves
    the world as it was: the state, its tokens and the log are unchanged, so
    the inline parser was not called.  Without a renderer, [render_state]
    returns these tokens. *)
Theorem resolution_idempotent md w :
  Forall resolved (st_tokens (w_state w)) ->
  py_list (in_place 0 (_iter_render md (st_tokens (w_state w)))) w
  = (Ok (st_tokens (w_state w)), w)
  /\ (renderer md = None ->
      render_state md w = (Ok (VTokens (st_tokens (w_state w))), w)).
Proof.
  intros H.
  assert (E : py_list (in_place 0 (_iter_render md (st_tokens (w_state w)))) w
              = (Ok (st_tokens (w_state w)), w)).
  { apply (render_in_place_settled md _) with (pre := []); [|done].
    eapply Forall_impl; [exact H | apply resolved_settled]. }
  split; [exact E|].
  intros Hr. unfold render_state, bind, ret. by rewrite Hr, E.
Qed.

Lemma resolution_idempotent_witness :
  Forall resolved (st_tokens (w_state (world_of demo_resolved)))
  /\ py_list (in_place 0 (_iter_render demo_md (st_tokens (w_state (world_of demo_resolved)))))
       (world_of demo_resolved)
     = (Ok (st_tokens (w_state (world_of demo_resolved))), world_of demo_resolved).
Proof.
  assert (H : Forall resolved (st_tokens (w_state (world_of demo_resolved)))).
  { repeat constructor. }
  split; [exact H|].
  apply (resolution_idempotent demo_md (world_of demo_resolved) H).
Defined.

(** ** Logs of computations *)
Section Logs.

Context (Q : option exn -> list event -> Prop) `{!Sequential Q}.

Lemma satisfies_ret {A} (a : A) : satisfies Q (ret a).
Proof.
  intros w o w' [= <- <-]. exists []. split; [by rewrite app_nil_r | apply seq_nil].
Qed.

Lemma satisfies_bind {A B} (m : M A) (f : A -> M B) :
  satisfies Q m -> (forall a, satisfies Q (f a)) -> satisfies Q (bind m f).
Proof.
  intros Hm Hf w o w'. unfold bind.
  destruct (m w) as [[a|e] w1] eqn:E.
  - intros E2.
    destruct (Hm _ _ _ E) as (evs1 & Hl1 & Q1).
    destruct (Hf a _ _ _ E2) as (evs2 & Hl2 & Q2).
    exists (evs1 ++ evs2). split; [by rewrite Hl2, Hl1, app_assoc|].
    by apply seq_app.
  - intros [= <- <-]. exact (Hm _ _ _ E).
Qed.

Lemma satisfies_get_state : satisfies Q get_state.
Proof.
  intros w o w' [= <- <-]. exists []. split; [by rewrite app_nil_r | apply seq_nil].
Qed.

Lemma satisfies_invoke {A} c (f : BlockState -> outcome A * BlockState) :
  (forall r, Q r [Event c r]) -> satisfies Q (invoke c f).
Proof.
  intros Hc w o w'. unfold invoke.
  destruct (f (w_state w)) as [o1 st1]. intros [= <- <-]. eauto.
Qed.

Lemma satisfies_call_inline md text :
  (forall r text env, Q r [Event (CInline text env) r]) ->
  satisfies Q (call_inline md text).
Proof.
  intros Hc w o w'. unfold call_inline.
  destruct (inline md text _) as [o1 env1]. intros [= <- <-]. eauto.
Qed.

Lemma satisfies_run_hooks stage hooks :
  (forall i r, Q r [Event (stage i) r]) ->
  forall i, satisfies Q (run_hooks stage i hooks).
Proof.
  intros Hc. induction hooks as [|h hooks IH]; intros i; cbn [run_hooks].
  - apply satisfies_ret.
  - apply satisfies_bind; [by apply satisfies_invoke | intros _; apply IH].
Qed.

Lemma satisfies_run_after_hooks hooks :
  (forall i v r, Q r [Event (CAfterRender i v) r]) ->
  forall i result, satisfies Q (run_after_hooks i hooks result).
Proof.
  intros Hc. induction hooks as [|h hooks IH]; intros i result; cbn [run_after_hooks].
  - apply satisfies_ret.
  - apply satisfies_bind; [by apply satisfies_invoke | intros r; apply IH].
Qed.

(** Generators *)
Lemma satisfies_py_list g : gen_satisfies Q g -> satisfies Q (py_list g).
Proof.
  induction 1 as [next Hnext _ IH]. intros w o w'. cbn [py_list].
  destruct (next w) as [[[[tok g']|]|e] w1] eqn:E.
  - destruct (Hnext _ _ _ E) as (evs1 & Hl1 & Q1).
    destruct (py_list g' w1) as [[l|e] w2] eqn:E2; intros [= <- <-];
      destruct (IH _ _ _ _ E _ _ _ E2) as (evs2 & Hl2 & Q2);
      (exists (evs1 ++ evs2); split; [by rewrite Hl2, Hl1, app_assoc|]);
      by apply seq_app.
  - intros [= <- <-]. exact (Hnext _ _ _ E).
  - intros [= <- <-]. exact (Hnext _ _ _ E).
Qed.

Lemma gen_satisfies_iter md toks :
  Forall (fun tok => satisfies Q (resolve_token md tok)) toks ->
  gen_satisfies Q (_iter_render md toks).
Proof.
  induction 1 as [|tok rest Htok _ IH]; cbn [_iter_render]; constructor.
  - apply satisfies_ret.
  - by intros w tok g' w' [=].
  - apply satisfies_bind; [done | intros a; apply satisfies_ret].
  - intros w tok' g' w'. unfold bind, ret.
    destruct (resolve_token md tok w) as [[t|e] w1]; [|done].
    by intros [= _ <- _].
Qed.

Lemma satisfies_resolve_token md tok :
  (forall r text env, Q r [Event (CInline text env) r]) ->
  satisfies Q (resolve_token md tok).
Proof.
  intros Hc.
  induction tok as [ty cs tx attrs IH|ty [text|] attrs] using token_ind'.
  - rewrite resolve_token_children.
    apply satisfies_bind; [|intros a; apply satisfies_ret].
    by apply satisfies_py_list, gen_satisfies_iter.
  - cbn [resolve_token].
    apply satisfies_bind; [|intros a; apply satisfies_ret].
    by apply satisfies_call_inline.
  - apply satisfies_ret.
Qed.

Lemma gen_satisfies_iter_render md toks :
  (forall r text env, Q r [Event (CInline text env) r]) ->
  gen_satisfies Q (_iter_render md toks).
Proof.
  intros Hc. apply gen_satisfies_iter, Forall_forall. intros tok _.
  by apply satisfies_resolve_token.
Qed.

Lemma gen_satisfies_in_place g :
  gen_satisfies Q g -> forall i, gen_satisfies Q (in_place i g).
Proof.
  induction 1 as [next Hnext _ IH]. intros i. cbn [in_place]. constructor.
  - intros w o w'.
    destruct (next w) as [[[[tok g']|]|e] w1] eqn:E; intros [= <- <-];
      exact (Hnext _ _ _ E).
  - intros w tok g' w'.
    destruct (next w) as [[[[tok1 g1]|]|e] w1] eqn:E; [|done|done].
    intros [= <- <- <-]. by eapply IH.
Qed.

Lemma gen_satisfies_exhausted : gen_satisfies Q exhausted.
Proof. constructor; [apply satisfies_ret | by intros w tok g' w' [=]]. Qed.

End Logs.

(** ** The three properties of logs used below *)

#[local] Instance only_inline_sequential : Sequential only_inline.
Proof. split; [constructor | intros; by apply Forall_app]. Qed.

#[local] Instance no_block_phase_sequential : Sequential no_block_phase.
Proof. split; [constructor | intros; by apply Forall_app]. Qed.

#[local] Instance fail_fast_sequential P : Sequential (fail_fast P).
Proof.
  split.
  - split; [done | by intros i c e [=]].
  - intros evs1 r evs2 [_ H1] [H2a H2b]. split.
    + intros e He. destruct (H2a e He) as (c & l & ->).
      exists c, (evs1 ++ l). by rewrite app_assoc.
    + intros i c e Hi Hc. rewrite length_app.
      destruct (decide (i < length evs1)) as [Hlt|Hge].
      * rewrite lookup_app_l in Hi by done.
        by destruct (H1 i c e Hi Hc) as [[=] _].
      * rewrite lookup_app_r in Hi by lia.
        destruct (H2b _ c e Hi Hc) as [-> Hlen]. split; [done | lia].
Qed.


Lemma only_inline_single r text env : only_inline r [Event (CInline text env) r].
Proof. by repeat constructor. Qed.

(** ** Renderers *)

(** Whatever the renderer does with the generator, the calls made while it
    runs are those of the generator. *)
Lemma satisfies_run_renderer Q `{!Sequential Q} p :
  (forall r r' evs, Q r evs -> Q r' evs) ->
  forall data, gen_satisfies Q data -> satisfies Q (run_renderer p data).
Proof.
  intros Hign.
  assert (Hnil : forall r, Q r []) by (intros r; apply (Hign None), seq_nil).
  induction p as [v|e|k IH|k IH] using rprog_ind'; intros data Hdata w o w'.
  - intros [= <- <-]. exists []. by rewrite app_nil_r.
  - intros [= <- <-]. exists []. by rewrite app_nil_r.
  - cbn [run_renderer]. destruct Hdata as [next Hnext Hrest]. cbn [gen_next].
    destruct (next w) as [[[[tok g']|]|e] w1] eqn:E; intros E2;
      destruct (Hnext _ _ _ E) as (evs1 & Hl1 & Q1).
    + destruct (IH _ _ (Hrest _ _ _ _ E) _ _ _ E2) as (evs2 & Hl2 & Q2).
      exists (evs1 ++ evs2). split; [by rewrite Hl2, Hl1, app_assoc|].
      apply seq_app; [by apply (Hign (raised (Ok (Some (tok, g'))))) | done].
    + destruct (IH _ _ (gen_satisfies_exhausted Q) _ _ _ E2) as (evs2 & Hl2 & Q2).
      exists (evs1 ++ evs2). split; [by rewrite Hl2, Hl1, app_assoc|].
      apply seq_app; [by apply (Hign (raised (@Ok (option (token * generator)) None))) | done].
    + destruct (IH _ _ (gen_satisfies_exhausted Q) _ _ _ E2) as (evs2 & Hl2 & Q2).
      exists (evs1 ++ evs2). split; [by rewrite Hl2, Hl1, app_assoc|].
      apply seq_app; [by apply (Hign (Some e)) | done].
  - cbn [run_renderer]. specialize (IH (w_state w)).
    destruct (k (w_state w)) as [st' p']. cbn [snd] in IH. intros E.
    exact (IH _ Hdata _ _ _ E).
Qed.

Lemma call_renderer_log rp data w o w' :
  gen_satisfies only_inline data ->
  call_renderer rp data w = (o, w') ->
  exists evs, w_log w' = w_log w ++ evs ++ [Event CRenderer (raised o)]
              /\ only_inline None evs.
Proof.
  intros Hdata. unfold call_renderer.
  destruct (run_renderer rp data w) as [o1 w1] eqn:E. intros [= <- <-].
  destruct (satisfies_run_renderer only_inline rp (fun _ _ _ H => H) _ Hdata _ _ _ E)
    as (evs & Hl & HQ).
  exists evs. cbn. by rewrite Hl, app_assoc.
Qed.

Section RenderState.

Variable md : Markdown.

Lemma render_data_only_inline toks :
  gen_satisfies only_inline (in_place 0 (_iter_render md toks)).
Proof.
  apply gen_satisfies_in_place; tc.
  apply gen_satisfies_iter_render; tc. apply only_inline_single.
Qed.

Lemma render_without_renderer Q `{!Sequential Q} w :
  (forall r text env, Q r [Event (CInline text env) r]) ->
  forall o w',
    (tokens <- py_list (in_place 0 (_iter_render md (st_tokens (w_state w)))) ;;
     ret (VTokens tokens)) w = (o, w') ->
    exists evs, w_log w' = w_log w ++ evs /\ Q (raised o) evs.
Proof.
  intros Hc. apply satisfies_bind; tc; [|intros; by apply satisfies_ret].
  apply satisfies_py_list; tc. apply gen_satisfies_in_place; tc.
  by apply gen_satisfies_iter_render.
Qed.

Lemma render_state_no_block_phase : satisfies no_block_phase (render_state md).
Proof.
  intros w o w'. unfold render_state. destruct (renderer md) as [rp|].
  - intros E. destruct (call_renderer_log _ _ _ _ _ (render_data_only_inline _) E)
      as (evs & Hl & HQ).
    eexists. split; [exact Hl|]. apply Forall_app. split.
    + eapply Forall_impl; [exact HQ|]. intros [[] ?]; by cbn.
    + by repeat constructor.
  - apply render_without_renderer; tc. by repeat constructor.
Qed.



End RenderState.

(** ** Exceptions *)

#[local] Instance raises_last_sequential : Sequential raises_last.
Proof.
  split; [by intros i c e [=]|].
  intros evs1 r evs2 H1 H2 i c e Hi. rewrite length_app.
  destruct (decide (i < length evs1)) as [Hlt|Hge].
  - rewrite lookup_app_l in Hi by done. by destruct (H1 i c e Hi) as [[=] _].
  - rewrite lookup_app_r in Hi by lia.
    destruct (H2 _ c e Hi) as [-> Hlen]. split; [done | lia].
Qed.

#[local] Instance inline_through_sequential : Sequential inline_through.
Proof.
  split; [by intros i text env e [=]|].
  intros evs1 r evs2 H1 H2 i text env e Hi.
  destruct (decide (i < length evs1)) as [Hlt|Hge].
  - rewrite lookup_app_l in Hi by done. by destruct (H1 i text env e Hi) as [[=] _].
  - rewrite lookup_app_r in Hi by lia.
    destruct (H2 _ text env e Hi) as [-> Heq]. split; [done|].
    rewrite take_app_ge by lia. rewrite <- app_assoc. f_equal.
    by replace (S i - length evs1) with (S (i - length evs1)) by lia.
Qed.











(** ** The block phase *)

Lemma invoke_log {A} c (f : BlockState -> outcome A * BlockState) w o w' :
  invoke c f w = (o, w') -> w_log w' = w_log w ++ [Event c (raised o)].
Proof. unfold invoke. destruct (f (w_state w)). by intros [= <- <-]. Qed.

Lemma run_hooks_calls stage hooks :
  forall i w o w',
    run_hooks stage i hooks w = (o, w') ->
    exists evs,
      w_log w' = w_log w ++ evs
      /\ map ev_call evs `prefix_of` map stage (seq i (length hooks))
      /\ (raised o = None -> map ev_call evs = map stage (seq i (length hooks))).
Proof.
  induction hooks as [|h hooks IH]; intros i w o w'; cbn [run_hooks].
  - intros [= <- <-]. exists []. by rewrite app_nil_r.
  - unfold bind. destruct (invoke (stage i) h w) as [[[]|e] w1] eqn:E1;
      apply invoke_log in E1; cbn in E1.
    + intros E2. destruct (IH _ _ _ _ E2) as (evs & Hl & Hp & Hc).
      exists (Event (stage i) None :: evs). split; [|split].
      * rewrite Hl, E1. by rewrite <- app_assoc.
      * cbn. by apply prefix_cons.
      * intros Hr. cbn. by rewrite Hc.
    + intros [= <- <-]. exists [Event (stage i) (Some e)].
      split; [done|]. split; [|done]. cbn. apply prefix_cons, prefix_nil.
Qed.

Lemma after_block_phase md :
  satisfies no_block_phase
    (run_hooks CBeforeRender 0 (before_render_hooks md) ;;
     result <- render_state md ;;
     result <- run_after_hooks 0 (after_render_hooks md) result ;;
     state <- get_state ;;
     ret (result, state)).
Proof.
  repeat (apply satisfies_bind; tc; [|intros]).
  - apply satisfies_run_hooks; tc. by repeat constructor.
  - apply render_state_no_block_phase.
  - apply satisfies_run_after_hooks; tc. by repeat constructor.
  - apply satisfies_get_state; tc.
  - apply satisfies_ret; tc.
Qed.

Lemma run_hooks_ran stage hooks :
  forall i w o w',
    run_hooks stage i hooks w = (o, w') ->
    exists evs,
      w_log w' = w_log w ++ evs
      /\ ran_hooks stage hooks i (w_state w) evs o (w_state w').
Proof.
  induction hooks as [|h hooks IH]; intros i w o w'; cbn [run_hooks].
  - intros [= <- <-]. exists []. split; [by rewrite app_nil_r | constructor].
  - unfold bind, invoke. destruct (h (w_state w)) as [[[]|e] st1] eqn:E1.
    + intros E2. destruct (IH _ _ _ _ E2) as (evs & Hl & Hr). cbn in Hl, Hr.
      exists (Event (stage i) None :: evs). split.
      * by rewrite Hl, <- app_assoc.
      * by econstructor.
    + intros [= <- <-]. exists [Event (stage i) (Some e)]. split; [done|].
      cbn. by constructor.
Qed.

(** C2, as the code has it: the external calls of a run of [parse] are,
    first, the calls of the block phase, in this order: [state.process] on
    the normalised text, which loads the source into the state; then the
    pre-parse hooks, in list order; then [block.parse], the block parser's
    pass over the state ([evs1], cut short only by an exception); after
    them come the calls of the later stages, none of which is a call of the
    block phase ([evs2]).  When [parse] returns, or when any later call was
    made, the block phase is complete.

    What each of them sees is this.  [process] is called on the supplied
    (or fresh) state.  If it raises, [parse] raises the same and nothing
    else is called.  Otherwise the pre-parse hooks are run on the state as
    [process] left it ([ran_hooks]): the first hook of the list gets that
    state, every other hook the state as the hook before it in the list
    left it.  If one raises, [parse] raises the same, in the state that hook
    left, and neither a later hook nor the block parser is called.
    Otherwise [block.parse] is called on the state as the last hook left
    it. *)
Theorem pre_parse_hooks_order md s state log o w' :
  parse md s state log = (o, w') ->
  (exists evs1 evs2,
      w_log w' = log ++ evs1 ++ evs2
      /\ (exists r, head evs1 = Some (Event (CProcess (normalize s)) r))
      /\ map ev_call evs1 `prefix_of` block_phase_calls md (normalize s)
      /\ Forall (fun ev => is_block_phase (ev_call ev) = false) evs2
      /\ ((exists res, o = Ok res) \/ evs2 <> [] ->
          map ev_call evs1 = block_phase_calls md (normalize s)))
  /\ (exists o1 st1,
         process (state_cls (block md)) (normalize s) (state_or_new md state) = (o1, st1)
         /\ match o1 with
            | Raise e =>
                o = Raise e
                /\ w' = World st1 (log ++ [Event (CProcess (normalize s)) (Some e)])
            | Ok _ =>
                exists evs_hooks o2 st2,
                  ran_hooks CBeforeParse (before_parse_hooks md) 0 st1 evs_hooks o2 st2
                  /\ match o2 with
                     | Raise e =>
                         o = Raise e
                         /\ w' = World st2 (log ++ Event (CProcess (normalize s)) None
                                                    :: evs_hooks)
                     | Ok _ =>
                         exists o3 st3 rest,
                           block_parse (block md) st2 = (o3, st3)
                           /\ w_log w' = log ++ Event (CProcess (normalize s)) None
                                             :: evs_hooks
                                             ++ Event CBlockParse (raised o3) :: rest
                     end
            end).
Proof.
  intros E. split.
  { revert E.
    unfold parse. generalize (normalize s) as s'.
    generalize (state_or_new md state) as st0. intros st0 s'.
    change log with (w_log (World st0 log)) at 2.
    generalize (World st0 log) as w0. intros w0.
    unfold pipeline, block_phase_calls. unfold bind at 1.
    destruct (invoke (CProcess s') _ w0) as [[[]|e] w1] eqn:E1;
      apply invoke_log in E1; cbn in E1.
    2:{ intros [= <- <-]. exists [Event (CProcess s') (Some e)], [].
        split; [by rewrite app_nil_r|]. split; [by eexists|].
        split; [apply prefix_cons, prefix_nil|]. split; [constructor|].
        by intros [[res [=]]|]. }
    unfold bind at 1.
    destruct (run_hooks CBeforeParse 0 _ w1) as [[[]|e] w2] eqn:E2;
      apply run_hooks_calls in E2 as (evs & Hl2 & Hp2 & Hc2).
    2:{ intros [= <- <-]. exists (Event (CProcess s') None :: evs), [].
        split; [by rewrite app_nil_r, Hl2, E1, <- app_assoc|]. split; [by eexists|].
        split; [apply prefix_cons; by apply prefix_app_r|]. split; [constructor|].
        by intros [[res [=]]|]. }
    specialize (Hc2 eq_refl). unfold bind at 1.
    destruct (invoke CBlockParse _ w2) as [[[]|e] w3] eqn:E3;
      apply invoke_log in E3; cbn in E3.
    2:{ intros [= <- <-].
        exists (Event (CProcess s') None :: evs ++ [Event CBlockParse (Some e)]), [].
        split; [rewrite app_nil_r, E3, Hl2, E1; cbn; by rewrite <- !app_assoc|].
        split; [by eexists|]. cbn. rewrite map_app, Hc2. cbn.
        split; [done|]. split; [constructor|]. by intros [[res [=]]|]. }
    intros E4. destruct (after_block_phase md _ _ _ E4) as (evs2 & Hl4 & HQ).
    exists (Event (CProcess s') None :: evs ++ [Event CBlockParse None]), evs2.
    split; [rewrite Hl4, E3, Hl2, E1; cbn; by rewrite <- !app_assoc|].
    split; [by eexists|]. cbn. rewrite map_app, Hc2. cbn. done.
  }
  unfold parse, pipeline in E. unfold bind at 1 in E. unfold invoke at 1 in E.
  cbn [w_state w_log] in E.
  destruct (process (state_cls (block md)) (normalize s) (state_or_new md state))
    as [o1 st1] eqn:E1.
  exists o1, st1. split; [done|]. destruct o1 as [[]|e]; cbn [raised] in E.
  2:{ by injection E as <- <-. }
  unfold bind at 1 in E.
  destruct (run_hooks CBeforeParse 0 _ _) as [o2 w2] eqn:E2.
  apply run_hooks_ran in E2 as (evs_hooks & Hl2 & Hran). cbn [w_state w_log] in Hl2, Hran.
  exists evs_hooks, o2, (w_state w2). split; [exact Hran|].
  destruct o2 as [[]|e].
  2:{ injection E as <- <-. split; [done|]. destruct w2 as [st2 log2]. cbn in *.
      by rewrite Hl2, <- app_assoc. }
  unfold bind at 1 in E. unfold invoke at 1 in E.
  destruct (block_parse (block md) (w_state w2)) as [o3 st3] eqn:E3.
  exists o3, st3. destruct o3 as [[]|e]; cbn [raised] in E |- *.
  - destruct (after_block_phase md _ _ _ E) as (rest & Hl & _). cbn [w_log] in Hl.
    exists rest. split; [done|]. rewrite Hl, Hl2.
    by rewrite <- !app_assoc.
  - injection E as <- <-. exists []. split; [done|]. cbn [w_log]. rewrite Hl2.
    by rewrite <- !app_assoc.
Qed.

Lemma pre_parse_hooks_order_witness :
  parse demo_two_hooks_md "hello world" None []
  = (Ok (VTokens demo_two_hooks_result, demo_two_hooks_state), demo_two_hooks_world)
  /\ (exists evs1 evs2,
         w_log demo_two_hooks_world = [] ++ evs1 ++ evs2
         /\ (exists r, head evs1 = Some (Event (CProcess (normalize "hello world")) r))
         /\ map ev_call evs1
            `prefix_of` block_phase_calls demo_two_hooks_md (normalize "hello world")
         /\ Forall (fun ev => is_block_phase (ev_call ev) = false) evs2
         /\ ((exists res, Ok (VTokens demo_two_hooks_result, demo_two_hooks_state) = Ok res)
             \/ evs2 <> [] ->
             map ev_call evs1
             = block_phase_calls demo_two_hooks_md (normalize "hello world")))
  /\ (exists o1 st1,
         process (state_cls (block demo_two_hooks_md)) (normalize "hello world")
           (state_or_new demo_two_hooks_md None) = (o1, st1)
         /\ match o1 with
            | Raise e =>
                Ok (VTokens demo_two_hooks_result, demo_two_hooks_state) = Raise e
                /\ demo_two_hooks_world
                   = World st1 ([] ++ [Event (CProcess (normalize "hello world")) (Some e)])
            | Ok _ =>
                exists evs_hooks o2 st2,
                  ran_hooks CBeforeParse (before_parse_hooks demo_two_hooks_md) 0 st1
                    evs_hooks o2 st2
                  /\ match o2 with
                     | Raise e =>
                         Ok (VTokens demo_two_hooks_result, demo_two_hooks_state) = Raise e
                         /\ demo_two_hooks_world
                            = World st2 ([] ++ Event (CProcess (normalize "hello world")) None
                                            :: evs_hooks)
                     | Ok _ =>
                         exists o3 st3 rest,
                           block_parse (block demo_two_hooks_md) st2 = (o3, st3)
                           /\ w_log demo_two_hooks_world
                              = [] ++ Event (CProcess (normalize "hello world")) None
                                   :: evs_hooks
                                   ++ Event CBlockParse (raised o3) :: rest
                     end
            end).
Proof.
  assert (E : parse demo_two_hooks_md "hello world" None []
              = (Ok (VTokens demo_two_hooks_result, demo_two_hooks_state),
                 demo_two_hooks_world)).
  { vm_compute. reflexivity. }
  split; [exact E|].
  exact (pre_parse_hooks_order demo_two_hooks_md "hello world" None []
           (Ok (VTokens demo_two_hooks_result, demo_two_hooks_state))
           demo_two_hooks_world E).
Defined.

(** C2, as stated, fails: when a pre-parse hook is called, the block parser
    has not populated [state.tokens]; only the source has been loaded.  The
    hook of [demo_counting_md] notes the number of tokens it sees: none,
    although the run ends with the paragraph that [block.parse], called
    after the hook, made of the source. *)
Lemma pre_parse_hook_sees_no_tokens :
  parse demo_counting_md "hello world" None []
  = (Ok (VTokens demo_counting_result, w_state demo_counting_world), demo_counting_world)
  /\ st_env (w_state demo_counting_world) !! "seen" = Some (VNum 0)
  /\ st_tokens (w_state demo_counting_world) = demo_counting_result
  /\ map ev_call (w_log demo_counting_world)
     = [CProcess ("hello world" +:+ Str.nl); CBeforeParse 0; CBlockParse;
        CInline "hello world" {["seen" := VNum 0]}].
Proof. repeat split; vm_compute; reflexivity. Qed.

(** ** Post-render hooks *)

Lemma bind_ok {A B} (m : M A) (f : A -> M B) w b w' :
  bind m f w = (Ok b, w') ->
  exists a w1, m w = (Ok a, w1) /\ f a w1 = (Ok b, w').
Proof.
  unfold bind. destruct (m w) as [[a|e] w1]; [|done]. intros E. by exists a, w1.
Qed.

Lemma fold_hooks_cons h hooks r st :
  fold_hooks (h :: hooks) r st
  = match h r st with
    | (Ok r1, st1) => fold_hooks hooks r1 st1
    | (Raise e, st1) => (Raise e, st1)
    end.
Proof.
  unfold fold_hooks. cbn [fold_left].
  destruct (h r st) as [[r1|e] st1]; [done|].
  induction hooks as [|h' hooks IH]; [done | exact IH].
Qed.

(** The loop over the post-render hooks is the fold. *)
Lemma run_after_hooks_fold hooks :
  forall i r w o w',
    run_after_hooks i hooks r w = (o, w') ->
    fold_hooks hooks r (w_state w) = (o, w_state w').
Proof.
  induction hooks as [|h hooks IH]; intros i r w o w'; cbn [run_after_hooks].
  - by intros [= <- <-].
  - rewrite fold_hooks_cons. unfold bind, invoke.
    destruct (h r (w_state w)) as [[r1|e] st1].
    + intros E. apply IH in E. exact E.
    + by intros [= <- <-].
Qed.

Lemma run_after_hooks_chained hooks :
  forall i r w r' w',
    run_after_hooks i hooks r w = (Ok r', w') ->
    exists evs, w_log w' = w_log w ++ evs /\ chained hooks i r (w_state w) evs r'.
Proof.
  induction hooks as [|h hooks IH]; intros i r w r' w'; cbn [run_after_hooks].
  - intros [= <- <-]. exists []. split; [by rewrite app_nil_r | constructor].
  - unfold bind, invoke.
    destruct (h r (w_state w)) as [[r1|e] st1] eqn:E1; [|done].
    intros E. apply IH in E as (evs & Hl & Hc). cbn in Hl, Hc.
    exists (Event (CAfterRender i r) None :: evs). split.
    + by rewrite Hl, <- app_assoc.
    + by econstructor.
Qed.

(** C5: when [parse] returns, its result is the left-to-right fold of the
    post-render hooks, in list order, over what [render_state] returned:
    the first hook was called on the renderer's result, every other hook
    on what the hook before it returned ([chained], read off the log), and
    what the last hook returned is the result of [parse]. *)
Theorem after_render_hooks_fold md s state log result st w' :
  parse md s state log = (Ok (result, st), w') ->
  exists w3 r0 w4 evs,
    render_state md w3 = (Ok r0, w4)
    /\ fold_hooks (after_render_hooks md) r0 (w_state w4) = (Ok result, st)
    /\ w_log w' = w_log w4 ++ evs
    /\ chained (after_render_hooks md) 0 r0 (w_state w4) evs result.
Proof.
  unfold parse, pipeline. intros E.
  apply bind_ok in E as (_ & w1 & _ & E).
  apply bind_ok in E as (_ & w2 & _ & E).
  apply bind_ok in E as (_ & w3 & _ & E).
  apply bind_ok in E as (_ & w3' & _ & E).
  apply bind_ok in E as (r0 & w4 & Hrender & E).
  apply bind_ok in E as (r & w5 & Hhooks & E).
  apply bind_ok in E as (st' & w6 & Hget & E).
  injection Hget as <- <-. injection E as <- <- <-.
  exists w3', r0, w4.
  destruct (run_after_hooks_chained _ _ _ _ _ _ Hhooks) as (evs & Hl & Hc).
  exists evs. split; [done|]. split; [|done].
  by apply run_after_hooks_fold in Hhooks.
Qed.

Lemma after_render_hooks_fold_witness :
  parse demo_chain_md "hello world" None []
  = (Ok (VNum 1, demo_chain_state), demo_chain_world)
  /\ exists w3 r0 w4 evs,
      render_state demo_chain_md w3 = (Ok r0, w4)
      /\ fold_hooks (after_render_hooks demo_chain_md) r0 (w_state w4)
         = (Ok (VNum 1), demo_chain_state)
      /\ w_log demo_chain_world = w_log w4 ++ evs
      /\ chained (after_render_hooks demo_chain_md) 0 r0 (w_state w4) evs (VNum 1).
Proof.
  split; [vm_compute; reflexivity|].
  apply (after_render_hooks_fold demo_chain_md "hello world" None []
           (VNum 1) demo_chain_state demo_chain_world).
  vm_compute; reflexivity.
Defined.

(** ** The shorthand *)

(** C8: called on the empty string or on [None], the instance gives what
    [parse] gives on the one-character text of a newline, from a fresh
    state, and gives the result only. *)
Theorem call_on_empty_or_none md log :
  parse md "" None log = parse md Str.nl None log
  /\ __call__ md (Some "") log = result_only (parse md Str.nl None log)
  /\ __call__ md None log = result_only (parse md Str.nl None log).
Proof.
  assert (E : normalize "" = normalize Str.nl) by reflexivity.
  split; [|split].
  - unfold parse. by rewrite E.
  - unfold __call__, result_only, parse. by rewrite E.
  - reflexivity.
Qed.

(** ** Reading a file *)

(** C10: [read] writes the path into the environment of the state before
    it opens the file.  When the file cannot be opened, or when its bytes do
    not decode, the exception reaches the caller with the state (the one
    supplied, or the fresh one) already changed: its environment maps
    ['__file__'] to the path; nothing else of it is changed and nothing was
    called. *)
Theorem read_failure_keeps_file_key md host filepath encoding state log e :
  open_rb host filepath = Raise e
  \/ (exists bytes, open_rb host filepath = Ok bytes
                    /\ decode host encoding bytes = Raise e) ->
  exists w,
    read md host filepath encoding state log = (Raise e, w)
    /\ st_env (w_state w) !! "__file__" = Some (VStr filepath)
    /\ w_state w = set_env (<["__file__" := VStr filepath]> (st_env (state_or_new md state)))
                     (state_or_new md state)
    /\ w_log w = log.
Proof.
  intros H. eexists. split.
  - unfold read. destruct H as [->|(bytes & -> & ->)]; reflexivity.
  - cbn. split; [apply lookup_insert_eq | done].
Qed.

Lemma read_failure_keeps_file_key_witness :
  (open_rb host_bad_bytes "README.md" = Raise (UnicodeDecodeError "utf-8")
   \/ (exists bytes, open_rb host_bad_bytes "README.md" = Ok bytes
                     /\ decode host_bad_bytes "utf-8" bytes = Raise (UnicodeDecodeError "utf-8")))
  /\ exists w,
      read demo_md host_bad_bytes "README.md" "utf-8" None []
      = (Raise (UnicodeDecodeError "utf-8"), w)
      /\ st_env (w_state w) !! "__file__" = Some (VStr "README.md")
      /\ w_state w = set_env (<["__file__" := VStr "README.md"]> (st_env (state_or_new demo_md None)))
                       (state_or_new demo_md None)
      /\ w_log w = [].
Proof.
  assert (H : open_rb host_bad_bytes "README.md" = Raise (UnicodeDecodeError "utf-8")
              \/ (exists bytes, open_rb host_bad_bytes "README.md" = Ok bytes
                                /\ decode host_bad_bytes "utf-8" bytes
                                   = Raise (UnicodeDecodeError "utf-8"))).
  { right. exists [Byte.xff]. split; reflexivity. }
  split; [exact H|].
  apply (read_failure_keeps_file_key demo_md host_bad_bytes "README.md" "utf-8" None []
           (UnicodeDecodeError "utf-8") H).
Defined.

Example read_missing_file :
  read demo_md host_no_file "missing.md" "utf-8" None []
  = (Raise (IOError "missing.md"),
     World {| st_src := ""; st_tokens := []; st_env := {["__file__" := VStr "missing.md"]} |} []).
Proof. vm_compute. reflexivity. Qed.

(** * Further properties *)

(** ** Normalisation, continued *)
Section NormalizeFacts.

Import Str.

Lemma replace_cr_id (s : string) : CR ∉ chars s -> replace cr nl s = s.
Proof.
  unfold replace. induction s as [|c s IH]; [done|]. cbn [chars]. intros H.
  apply not_elem_of_cons in H as [Hc Hs].
  cbn [replace_from cr String.prefix].
  destruct (ascii_dec CR c) as [<-|_]; [done|]. by rewrite IH.
Qed.

Lemma replace_crlf_id (s : string) : CR ∉ chars s -> replace crlf nl s = s.
Proof.
  induction s as [|c s IH]; [done|]. cbn [chars]. intros H.
  apply not_elem_of_cons in H as [Hc Hs].
  rewrite replace_crlf_miss; [by rewrite IH|].
  cbn [crlf String.prefix]. by destruct (ascii_dec CR c) as [<-|_].
Qed.

Lemma unify_newlines_id (s : string) : CR ∉ chars s -> unify_newlines s = s.
Proof.
  intros H. unfold unify_newlines. rewrite (replace_crlf_id s H). by apply replace_cr_id.
Qed.

Lemma unify_newlines_no_cr (s : string) : CR ∉ chars (unify_newlines s).
Proof. apply no_cr_replace_cr. Qed.

Lemma normalize_no_cr (s : string) : CR ∉ chars (normalize s).
Proof.
  rewrite normalize_unfold. destruct (endswith _ _); [apply unify_newlines_no_cr|].
  rewrite chars_app. intros [H|H]%elem_of_app.
  - by apply unify_newlines_no_cr in H.
  - apply list_elem_of_singleton in H. discriminate.
Qed.

Lemma normalize_endswith (s : string) : endswith (normalize s) nl = true.
Proof.
  rewrite normalize_unfold. destruct (endswith (unify_newlines s) nl) eqn:E; [done|].
  apply endswith_nl_last, last_char_app_nl.
Qed.

Lemma normalize_fixed (s : string) :
  CR ∉ chars s -> endswith s nl = true -> normalize s = s.
Proof.
  intros Hcr Hnl. rewrite normalize_unfold, (unify_newlines_id s Hcr). by rewrite Hnl.
Qed.

(** [replace cr nl] goes through concatenation. *)
Lemma replace_cr_app (s1 s2 : string) :
  replace cr nl (s1 +:+ s2) = replace cr nl s1 +:+ replace cr nl s2.
Proof.
  unfold replace. induction s1 as [|c s1 IH]; [done|].
  change (String c s1 +:+ s2) with (String c (s1 +:+ s2)).
  cbn [replace_from cr String.prefix].
  destruct (ascii_dec CR c) as [<-|_].
  - rewrite !prefix_empty. cbn. by rewrite IH.
  - cbn. by rewrite IH.
Qed.

(** [replace crlf nl] goes through a concatenation whose seam is not in
    the middle of a CR LF pair. *)
Lemma replace_crlf_app (s1 s2 : string) :
  last_char s1 <> Some CR \/ head (chars s2) <> Some LF ->
  replace crlf nl (s1 +:+ s2) = replace crlf nl s1 +:+ replace crlf nl s2.
Proof.
  unfold last_char.
  induction s1 as [|c|c1 c2 s IH1 IH2] using string_ind2; intros H.
  - done.
  - change (String c "" +:+ s2) with (String c s2).
    destruct (String.prefix crlf (String c s2)) eqn:Hp.
    + apply prefix_crlf in Hp as [-> [s' ->]]. cbn in H. by destruct H.
    + rewrite (replace_crlf_miss _ _ Hp). rewrite (replace_crlf_miss c ""); [done|].
      cbn [crlf String.prefix]. by destruct (ascii_dec CR c).
  - change (String c1 (String c2 s) +:+ s2) with (String c1 (String c2 (s +:+ s2))).
    destruct (String.prefix crlf (String c1 (String c2 s))) eqn:Hp.
    + apply prefix_crlf in Hp as [-> [s' [= -> ->]]].
      rewrite !replace_crlf_hit, IH1; [done|].
      destruct H as [H|H]; [left|by right].
      cbn [chars] in H. destruct s' as [|c3 s']; [done|].
      by rewrite !last_cons_cons in H.
    + assert (Hp' : String.prefix crlf (String c1 (String c2 (s +:+ s2))) = false).
      { revert Hp. cbn [crlf String.prefix]. destruct (ascii_dec CR c1); [|done].
        destruct (ascii_dec LF c2); [|done]. by rewrite !prefix_empty. }
      rewrite (replace_crlf_miss _ _ Hp), (replace_crlf_miss _ _ Hp').
      change (String c2 (s +:+ s2)) with (String c2 s +:+ s2).
      rewrite IH2; [done|].
      destruct H as [H|H]; [left|by right].
      cbn [chars] in H. by rewrite last_cons_cons in H.
Qed.

Lemma unify_newlines_crlf (a b : string) :
  unify_newlines (a +:+ crlf +:+ b) = unify_newlines a +:+ nl +:+ unify_newlines b.
Proof.
  unfold unify_newlines.
  rewrite (replace_crlf_app a (crlf +:+ b)) by (right; cbn; intros [=]).
  change (crlf +:+ b) with (String CR (String LF b)).
  rewrite replace_crlf_hit, replace_cr_app.
  change (String LF (replace crlf nl b)) with (nl +:+ replace crlf nl b).
  by rewrite replace_cr_app.
Qed.

Lemma unify_newlines_lf (a b : string) :
  last_char a <> Some CR ->
  unify_newlines (a +:+ nl +:+ b) = unify_newlines a +:+ nl +:+ unify_newlines b.
Proof.
  intros Ha. unfold unify_newlines.
  rewrite (replace_crlf_app a (nl +:+ b)) by (by left).
  change (nl +:+ b) with (String LF b).
  rewrite replace_crlf_miss by done.
  change (String LF (replace crlf nl b)) with (nl +:+ replace crlf nl b).
  by rewrite !replace_cr_app.
Qed.

Lemma unify_newlines_cr (a b : string) :
  head (chars b) <> Some LF ->
  unify_newlines (a +:+ cr +:+ b) = unify_newlines a +:+ nl +:+ unify_newlines b.
Proof.
  intros Hb. unfold unify_newlines.
  rewrite (replace_crlf_app a (cr +:+ b)) by (right; cbn; intros [=]).
  change (cr +:+ b) with (String CR b).
  rewrite replace_crlf_miss.
  2:{ cbn [crlf String.prefix]. destruct (ascii_dec CR CR); [|done].
      destruct b as [|c b]; [done|]. cbn [String.prefix].
      destruct (ascii_dec LF c) as [<-|]; [|done]. by destruct Hb. }
  change (String CR (replace crlf nl b)) with (cr +:+ replace crlf nl b).
  by rewrite !replace_cr_app.
Qed.

End NormalizeFacts.

(** X1: normalising twice is normalising once, so [parse] on a text that
    was normalised beforehand is [parse] on the original text: same
    outcome, same state, same calls. *)
Theorem normalize_idempotent (s : string) :
  normalize (normalize s) = normalize s
  /\ forall md state log, parse md (normalize s) state log = parse md s state log.
Proof.
  assert (E : normalize (normalize s) = normalize s).
  { apply normalize_fixed; [apply normalize_no_cr | apply normalize_endswith]. }
  split; [exact E|]. intros md state log. unfold parse. by rewrite E.
Qed.

(** X2: the texts that normalisation leaves alone are exactly those without
    a carriage return that end with a newline. *)
Theorem normalize_fixed_points (s : string) :
  normalize s = s <-> (Str.CR ∉ Str.chars s) /\ Str.endswith s Str.nl = true.
Proof.
  split.
  - intros E. rewrite <- E. split; [apply normalize_no_cr | apply normalize_endswith].
  - intros [Hcr Hnl]. by apply normalize_fixed.
Qed.

(** X3: the three line separators are one: between a text that does not
    end with a carriage return and a text that does not start with a
    newline, CR LF, a lone CR and a lone LF normalise to the same text, with
    one newline at the seam; CR LF is never two line breaks. *)
Theorem line_separators_agree (a b : string) :
  Str.last_char a <> Some Str.CR ->
  head (Str.chars b) <> Some Str.LF ->
  unify_newlines (a +:+ Str.nl +:+ b) = unify_newlines a +:+ Str.nl +:+ unify_newlines b
  /\ normalize (a +:+ Str.crlf +:+ b) = normalize (a +:+ Str.nl +:+ b)
  /\ normalize (a +:+ Str.cr +:+ b) = normalize (a +:+ Str.nl +:+ b).
Proof.
  intros Ha Hb. split; [by apply unify_newlines_lf|].
  rewrite !normalize_unfold.
  rewrite unify_newlines_crlf, unify_newlines_cr, unify_newlines_lf by done. done.
Qed.

Lemma line_separators_agree_witness :
  Str.last_char "a" <> Some Str.CR
  /\ head (Str.chars "b") <> Some Str.LF
  /\ unify_newlines ("a" +:+ Str.nl +:+ "b")
     = unify_newlines "a" +:+ Str.nl +:+ unify_newlines "b"
  /\ normalize ("a" +:+ Str.crlf +:+ "b") = normalize ("a" +:+ Str.nl +:+ "b")
  /\ normalize ("a" +:+ Str.cr +:+ "b") = normalize ("a" +:+ Str.nl +:+ "b").
Proof.
  assert (Ha : Str.last_char "a" <> Some Str.CR) by (vm_compute; congruence).
  assert (Hb : head (Str.chars "b") <> Some Str.LF) by (vm_compute; congruence).
  split; [exact Ha|]. split; [exact Hb|].
  apply (line_separators_agree "a" "b" Ha Hb).
Defined.

(** ** Stripped texts *)
Section StripFacts.

Import Str.

Lemma lstrip_head (s : string) (c : ascii) :
  head (chars (lstrip s)) = Some c -> isspace c = false.
Proof.
  induction s as [|a s IH]; [done|]. cbn [lstrip].
  destruct (isspace a) eqn:E; [exact IH|]. cbn. by intros [= <-].
Qed.

Lemma rstrip_last (s : string) (c : ascii) :
  last (chars (rstrip s)) = Some c -> isspace c = false.
Proof.
  induction s as [|a s IH]; [done|]. cbn [rstrip].
  destruct (rstrip s) as [|c' r].
  - destruct (isspace a) eqn:E; [done|]. cbn. by intros [= <-].
  - cbn [chars] in *. by rewrite last_cons_cons.
Qed.

Lemma rstrip_head (s : string) (c : ascii) :
  head (chars (rstrip s)) = Some c -> head (chars s) = Some c.
Proof.
  destruct s as [|a s]; [done|]. cbn [rstrip].
  destruct (rstrip s) as [|c' r]; [|done].
  by destruct (isspace a).
Qed.

Lemma strip_stripped (s : string) : stripped (strip s).
Proof.
  split; intros c H.
  - unfold strip in H. by apply rstrip_head, lstrip_head in H.
  - by apply rstrip_last in H.
Qed.

End StripFacts.

#[local] Instance inline_texts_stripped_sequential : Sequential inline_texts_stripped.
Proof. split; [constructor | intros; by apply Forall_app]. Qed.

Lemma satisfies_resolve_token_stripped md tok :
  satisfies inline_texts_stripped (resolve_token md tok).
Proof.
  induction tok as [ty cs tx attrs IH|ty [text|] attrs] using token_ind'.
  - rewrite resolve_token_children.
    apply satisfies_bind; tc; [|intros a; apply satisfies_ret; tc].
    apply satisfies_py_list; tc. by apply gen_satisfies_iter; tc.
  - cbn [resolve_token].
    apply satisfies_bind; tc; [|intros a; apply satisfies_ret; tc].
    intros w o w'. unfold call_inline.
    destruct (inline md _ _) as [o1 env1]. intros [= <- <-].
    eexists. split; [done|]. constructor; [|constructor]. apply strip_stripped.
  - apply satisfies_ret; tc.
Qed.

Lemma satisfies_call_renderer Q `{!Sequential Q} rp data :
  (forall r r' evs, Q r evs -> Q r' evs) ->
  (forall r, Q r [Event CRenderer r]) ->
  gen_satisfies Q data ->
  satisfies Q (call_renderer rp data).
Proof.
  intros Hign Hc Hdata w o w'. unfold call_renderer.
  destruct (run_renderer rp data w) as [o1 w1] eqn:E. intros [= <- <-].
  destruct (satisfies_run_renderer Q rp Hign _ Hdata _ _ _ E) as (evs & Hl & HQ).
  exists (evs ++ [Event CRenderer (raised o1)]). split.
  - cbn. by rewrite Hl, app_assoc.
  - apply seq_app; [by apply (Hign (raised o1)) | apply Hc].
Qed.

Lemma render_state_stripped md : satisfies inline_texts_stripped (render_state md).
Proof.
  assert (Hgen : forall toks,
             gen_satisfies inline_texts_stripped (in_place 0 (_iter_render md toks))).
  { intros toks. apply gen_satisfies_in_place; tc.
    apply gen_satisfies_iter; tc. apply Forall_forall. intros tok _.
    apply satisfies_resolve_token_stripped. }
  intros w o w'. unfold render_state. destruct (renderer md) as [rp|].
  - apply satisfies_call_renderer; tc; [by intros | by repeat constructor | apply Hgen].
  - apply (satisfies_bind inline_texts_stripped
             (py_list (in_place 0 (_iter_render md (st_tokens (w_state w)))))
             (fun tokens => ret (VTokens tokens))).
    + apply satisfies_py_list; tc. apply Hgen.
    + intros a. apply satisfies_ret; tc.
Qed.

(** X4: whatever the tokens, the hooks and the renderer, every text that
    reaches the inline parser during [parse] is stripped: it neither starts
    nor ends with a whitespace character. *)
Theorem inline_sees_stripped_texts md s state log o w' :
  parse md s state log = (o, w') ->
  exists evs,
    w_log w' = log ++ evs
    /\ forall text env r, Event (CInline text env) r ∈ evs -> stripped text.
Proof.
  unfold parse. intros E.
  assert (H : satisfies inline_texts_stripped (pipeline md (normalize s))).
  { unfold pipeline.
    repeat (apply satisfies_bind; tc; [|intros]);
      try (apply satisfies_invoke; tc; intros; by repeat constructor);
      try (apply satisfies_run_hooks; tc; intros; by repeat constructor).
    - apply render_state_stripped.
    - apply satisfies_run_after_hooks; tc. intros; by repeat constructor.
    - apply satisfies_get_state; tc.
    - apply satisfies_ret; tc. }
  destruct (H _ _ _ E) as (evs & Hl & HQ). exists evs. split; [done|].
  intros text env r Hin. unfold inline_texts_stripped in HQ.
  rewrite Forall_forall in HQ. exact (HQ _ Hin).
Qed.

Lemma inline_sees_stripped_texts_witness :
  parse demo_counting_md "hello world" None []
  = (Ok (VTokens demo_counting_result, w_state demo_counting_world), demo_counting_world)
  /\ exists evs,
      w_log demo_counting_world = [] ++ evs
      /\ forall text env r, Event (CInline text env) r ∈ evs -> stripped text.
Proof.
  split; [vm_compute; reflexivity|].
  apply (inline_sees_stripped_texts demo_counting_md "hello world" None []
           (Ok (VTokens demo_counting_result, w_state demo_counting_world))
           demo_counting_world).
  vm_compute; reflexivity.
Defined.

(** ** Tokens with both keys *)

(** X5: ['children'] takes precedence over ['text'].  A token that has
    both is resolved through its children only: it keeps its ['text'], and
    that text is never handed to the inline parser (the inline calls are
    those of the children). *)
Theorem children_take_precedence md ty cs text attrs rest w tok' g' w' :
  gen_next (_iter_render md (Token ty (Some cs) (Some text) attrs :: rest)) w
  = (Ok (Some (tok', g')), w') ->
  tok_text tok' = Some text
  /\ (exists cs', tok_children tok' = Some cs' /\ Forall2 Resolves cs cs')
  /\ inline_calls w w' (flat_map pending_texts cs).
Proof.
  rewrite gen_next_iter_cons. unfold bind, ret.
  destruct (resolve_token md _ w) as [[t|e] w1] eqn:E; [|done].
  intros [= <- <- <-].
  destruct (resolve_token_ok md _ _ _ _ E) as [Hr Hc].
  inversion Hr as [? ? cs' ? ? Hcs| |]; subst. cbn. eauto.
Qed.

Lemma children_take_precedence_witness :
  gen_next (_iter_render demo_md [demo_both]) demo_world
  = (Ok (Some (Token "list_item"
                 (Some [Token "paragraph" (Some [Token "text" None None [("value", "x")]]) None []])
                 (Some "kept") [],
               _iter_render demo_md [])),
     World (new_state demo_state_cls) [Event (CInline "x" ∅) None])
  /\ tok_text (Token "list_item"
                 (Some [Token "paragraph" (Some [Token "text" None None [("value", "x")]]) None []])
                 (Some "kept") []) = Some "kept"
  /\ (exists cs',
         tok_children (Token "list_item"
                         (Some [Token "paragraph" (Some [Token "text" None None [("value", "x")]]) None []])
                         (Some "kept") []) = Some cs'
         /\ Forall2 Resolves [Token "paragraph" None (Some "x") []] cs')
  /\ inline_calls demo_world
       (World (new_state demo_state_cls) [Event (CInline "x" ∅) None])
       (flat_map pending_texts [Token "paragraph" None (Some "x") []]).
Proof.
  split; [reflexivity|].
  apply (children_take_precedence demo_md "list_item"
           [Token "paragraph" None (Some "x") []] "kept" [] [] demo_world
           _ (_iter_render demo_md [])).
  reflexivity.
Defined.

(** ** When the inline parser raises *)
Section ResolverFailure.

Variable md : Markdown.





End ResolverFailure.



(** ** Laziness *)
Section Laziness.

Variable md : Markdown.

Lemma gen_next_in_place_nil i w :
  gen_next (in_place i (_iter_render md [])) w = (Ok None, w).
Proof. reflexivity. Qed.

Lemma gen_next_in_place_cons i tok rest w :
  gen_next (in_place i (_iter_render md (tok :: rest))) w
  = match resolve_token md tok w with
    | (Ok tok', w') =>
        (Ok (Some (tok', in_place (S i) (_iter_render md rest))), set_token i tok' w')
    | (Raise e, w') => (Raise e, w')
    end.
Proof.
  cbn [_iter_render in_place gen_next]. unfold bind, ret.
  by destruct (resolve_token md tok w) as [[tok'|e] w'].
Qed.

Lemma gen_take_in_place k :
  forall toks pre w out g' w',
    st_tokens (w_state w) = pre ++ toks ->
    gen_take k (in_place (length pre) (_iter_render md toks)) w = (Ok (out, g'), w') ->
    Forall2 Resolves (take k toks) out
    /\ st_tokens (w_state w') = pre ++ out ++ drop k toks
    /\ g' = in_place (length pre + length out) (_iter_render md (drop k toks))
    /\ exists evs, w_log w' = w_log w ++ evs
                   /\ Forall2 inline_returned evs (flat_map pending_texts (take k toks)).
Proof.
  induction k as [|k IH]; intros toks pre w out g' w' Hpre.
  - cbn [gen_take]. intros [= <- <- <-]. rewrite take_0, drop_0. cbn.
    split; [constructor|]. split; [done|]. split; [by rewrite Nat.add_0_r|].
    exists []. split; [by rewrite app_nil_r | constructor].
  - cbn [gen_take]. destruct toks as [|tok rest].
    + rewrite gen_next_in_place_nil. intros [= <- <- <-]. cbn.
      split; [constructor|]. split; [done|]. split; [done|].
      exists []. split; [by rewrite app_nil_r | constructor].
    + rewrite gen_next_in_place_cons.
      destruct (resolve_token md tok w) as [[tok'|e] w1] eqn:E1; [|done].
      destruct (gen_take k _ _) as [[[l g1]|e] w2] eqn:E2; [|done].
      intros [= <- <- <-].
      destruct (resolve_token_ok md tok _ _ _ E1) as (Hr & Hs1 & Ht1 & evs1 & Hl1 & Hf1).
      assert (Hpre1 : st_tokens (w_state w1) = pre ++ tok :: rest) by congruence.
      pose proof (set_token_tokens pre tok tok' rest w1 Hpre1) as Hpre2.
      replace (S (length pre)) with (length (pre ++ [tok'])) in E2
        by (rewrite length_app; cbn; lia).
      destruct (IH _ _ _ _ _ _ Hpre2 E2) as (Hrs & Ht2 & Hg & evs2 & Hl2 & Hf2).
      cbn [take drop flat_map].
      split; [by constructor|]. split; [by rewrite Ht2, <- app_assoc|].
      split.
      { rewrite Hg. f_equal. rewrite length_app. cbn. lia. }
      exists (evs1 ++ evs2). split.
      * rewrite Hl2. cbn. by rewrite Hl1, app_assoc.
      * by apply Forall2_app.
Qed.

Lemma run_renderer_never_pulls p :
  never_pulls p ->
  forall data w, w_log (snd (run_renderer p data w)) = w_log w.
Proof.
  induction p as [v|e|k IH|k IH] using rprog_ind'; intros Hp data w.
  - done.
  - done.
  - inversion Hp.
  - cbn [run_renderer]. inversion Hp as [| |? Hk]; subst.
    specialize (IH (w_state w)). specialize (Hk (w_state w)).
    destruct (k (w_state w)) as [st' p']. cbn [snd] in IH, Hk.
    by rewrite (IH Hk).
Qed.

Lemma run_collect toks :
  forall fuel acc i w,
    length toks < fuel ->
    run_renderer (collect fuel acc) (in_place i (_iter_render md toks)) w
    = match py_list (in_place i (_iter_render md toks)) w with
      | (Ok l, w') => (Ok (VTokens (acc ++ l)), w')
      | (Raise e, w') => (Raise e, w')
      end.
Proof.
  induction toks as [|tok rest IH]; intros [|fuel] acc i w Hlt;
    try (cbn in Hlt; lia).
  - cbn [collect run_renderer]. rewrite gen_next_in_place_nil, py_list_in_place_nil.
    cbn. by rewrite app_nil_r.
  - cbn [collect run_renderer].
    rewrite gen_next_in_place_cons, py_list_in_place_cons.
    destruct (resolve_token md tok w) as [[tok'|e] w1]; [|done].
    rewrite IH by (cbn in Hlt; lia).
    destruct (py_list _ _) as [[l|e] w2]; [|done].
    by rewrite <- app_assoc.
Qed.

End Laziness.

(** X7: tokens are resolved one [next] at a time.  After [k] calls of
    [next] on the generator over the tokens of the state, the first [k]
    tokens of [state.tokens] are resolved, in place; the tokens after them
    are as they were, and the inline parser has been called on the texts of
    the first [k] only.  A consumer that stops early leaves the rest of the
    document unresolved. *)
Theorem partial_consumption md k w out g' w' :
  gen_take k (in_place 0 (_iter_render md (st_tokens (w_state w)))) w = (Ok (out, g'), w') ->
  Forall2 Resolves (take k (st_tokens (w_state w))) out
  /\ st_tokens (w_state w') = out ++ drop k (st_tokens (w_state w))
  /\ exists evs,
      w_log w' = w_log w ++ evs
      /\ Forall2 inline_returned evs
           (flat_map pending_texts (take k (st_tokens (w_state w)))).
Proof.
  intros E.
  destruct (gen_take_in_place md k _ [] w out g' w' eq_refl E) as (Hr & Ht & _ & Hl).
  done.
Qed.

Lemma partial_consumption_witness :
  gen_take 1 (in_place 0 (_iter_render demo_md (st_tokens (w_state (world_of demo_tokens)))))
    (world_of demo_tokens)
  = (Ok (take 1 demo_tokens_resolved, in_place 1 (_iter_render demo_md (drop 1 demo_tokens))),
     World (set_tokens (take 1 demo_tokens_resolved ++ drop 1 demo_tokens)
              (new_state demo_state_cls))
       [Event (CInline "a" ∅) None; Event (CInline "b" ∅) None])
  /\ Forall2 Resolves (take 1 (st_tokens (w_state (world_of demo_tokens))))
       (take 1 demo_tokens_resolved)
  /\ st_tokens (w_state (World (set_tokens (take 1 demo_tokens_resolved ++ drop 1 demo_tokens)
                                  (new_state demo_state_cls))
                           [Event (CInline "a" ∅) None; Event (CInline "b" ∅) None]))
     = take 1 demo_tokens_resolved ++ drop 1 (st_tokens (w_state (world_of demo_tokens)))
  /\ exists evs,
      w_log (World (set_tokens (take 1 demo_tokens_resolved ++ drop 1 demo_tokens)
                      (new_state demo_state_cls))
               [Event (CInline "a" ∅) None; Event (CInline "b" ∅) None])
      = w_log (world_of demo_tokens) ++ evs
      /\ Forall2 inline_returned evs
           (flat_map pending_texts (take 1 (st_tokens (w_state (world_of demo_tokens))))).
Proof.
  split; [reflexivity|].
  apply (partial_consumption demo_md 1 (world_of demo_tokens) _
           (in_place 1 (_iter_render demo_md (drop 1 demo_tokens)))).
  reflexivity.
Defined.

(** X8: nothing is resolved before the renderer asks.  With a renderer
    that never calls [next] on the generator it is handed, [render_state]
    makes no inline call: the only call it adds to the log is the
    renderer's. *)
Theorem renderer_that_never_pulls md p w o w' :
  renderer md = Some p ->
  never_pulls p ->
  render_state md w = (o, w') ->
  w_log w' = w_log w ++ [Event CRenderer (raised o)].
Proof.
  intros Hr Hp. unfold render_state, call_renderer. rewrite Hr.
  pose proof (run_renderer_never_pulls p Hp
                (in_place 0 (_iter_render md (st_tokens (w_state w)))) w) as Hl.
  destruct (run_renderer p _ w) as [o1 w1]. intros [= <- <-]. cbn in *. by rewrite Hl.
Qed.

Lemma renderer_that_never_pulls_witness :
  renderer demo_lazy_md = Some (RReturn (VStr ""))
  /\ never_pulls (RReturn (VStr ""))
  /\ render_state demo_lazy_md (world_of demo_tokens)
     = (Ok (VStr ""), World (w_state (world_of demo_tokens)) [Event CRenderer None])
  /\ w_log (World (w_state (world_of demo_tokens)) [Event CRenderer None])
     = w_log (world_of demo_tokens) ++ [Event CRenderer (raised (Ok (VStr "")))].
Proof.
  split; [reflexivity|]. split; [constructor|]. split; [reflexivity|].
  apply (renderer_that_never_pulls demo_lazy_md (RReturn (VStr "")) (world_of demo_tokens)
           (Ok (VStr "")) (World (w_state (world_of demo_tokens)) [Event CRenderer None]));
    [reflexivity | constructor | reflexivity].
Defined.

(** X9: a renderer that returns the list of the tokens it is given gives
    what [render_state] gives without a renderer: the same result or the
    same exception, the same state, the same inline calls; the log has the
    renderer's call in addition. *)
Theorem list_renderer_agrees md w :
  render_state (with_renderer (Some list_renderer) md) w
  = match render_state (with_renderer None md) w with
    | (o, w') => (o, record (Event CRenderer (raised o)) w')
    end.
Proof.
  unfold render_state, call_renderer, list_renderer. cbn [renderer with_renderer].
  cbn [run_renderer]. unfold bind, ret.
  change (_iter_render (with_renderer (Some list_renderer) md))
    with (_iter_render md).
  change (_iter_render (with_renderer None md)) with (_iter_render md).
  destruct w as [st log]. cbn [w_state w_log].
  rewrite run_collect by lia. cbn [app].
  by destruct (py_list _ _) as [[l|e] w'].
Qed.

(** ** The result without a renderer *)

(** X10: without a renderer and without post-render hooks, what [parse]
    returns is the list of the tokens of the state it returns: the result
    and [state.tokens] hold the same resolved tokens. *)
Theorem result_is_state_tokens md s state log res st w' :
  renderer md = None ->
  after_render_hooks md = [] ->
  parse md s state log = (Ok (res, st), w') ->
  res = VTokens (st_tokens st) /\ st = w_state w'.
Proof.
  intros Hr Hh. unfold parse, pipeline. rewrite Hh. intros E.
  apply bind_ok in E as (_ & w1 & _ & E).
  apply bind_ok in E as (_ & w2 & _ & E).
  apply bind_ok in E as (_ & w3 & _ & E).
  apply bind_ok in E as (_ & w4 & _ & E).
  apply bind_ok in E as (r0 & w5 & Hrender & E).
  cbn [run_after_hooks] in E.
  apply bind_ok in E as (r & w6 & [= <- <-] & E).
  apply bind_ok in E as (st' & w7 & [= <- <-] & [= <- <- <-]).
  split; [|done].
  unfold render_state in Hrender. rewrite Hr in Hrender.
  apply bind_ok in Hrender as (out & w8 & Hlist & [= <- <-]).
  by destruct (render_in_place_ok md _ [] w4 out w8 eq_refl Hlist) as (_ & -> & _).
Qed.

Lemma result_is_state_tokens_witness :
  renderer demo_counting_md = None
  /\ after_render_hooks demo_counting_md = []
  /\ parse demo_counting_md "hello world" None []
     = (Ok (VTokens demo_counting_result, w_state demo_counting_world), demo_counting_world)
  /\ VTokens demo_counting_result = VTokens (st_tokens (w_state demo_counting_world))
  /\ w_state demo_counting_world = w_state demo_counting_world.
Proof.
  split; [reflexivity|]. split; [reflexivity|]. split; [vm_compute; reflexivity|].
  apply (result_is_state_tokens demo_counting_md "hello world" None []
           (VTokens demo_counting_result) (w_state demo_counting_world)
           demo_counting_world);
    [reflexivity | reflexivity | vm_compute; reflexivity].
Defined.

(** ** The order of the stages *)

#[local] Instance only_render_calls_sequential : Sequential only_render_calls.
Proof. split; [constructor | intros; by apply Forall_app]. Qed.

#[local] Instance no_hook_call_sequential : Sequential no_hook_call.
Proof. split; [constructor | intros; by apply Forall_app]. Qed.

Lemma satisfies_render_state Q `{!Sequential Q} md :
  (forall r r' evs, Q r evs -> Q r' evs) ->
  (forall r text env, Q r [Event (CInline text env) r]) ->
  (forall r, Q r [Event CRenderer r]) ->
  satisfies Q (render_state md).
Proof.
  intros Hign Hi Hc w o w'. unfold render_state. destruct (renderer md) as [rp|].
  - apply satisfies_call_renderer; tc; [done..|].
    apply gen_satisfies_in_place; tc. by apply gen_satisfies_iter_render.
  - by apply render_without_renderer.
Qed.

Lemma invoke_ok {A} c (f : BlockState -> outcome A * BlockState) w a w' :
  invoke c f w = (Ok a, w') -> w_log w' = w_log w ++ [Event c None].
Proof. intros E. by apply invoke_log in E. Qed.

Lemma run_hooks_ok stage hooks :
  forall i w u w',
    run_hooks stage i hooks w = (Ok u, w') ->
    w_log w' = w_log w ++ map (fun j => Event (stage j) None) (seq i (length hooks)).
Proof.
  induction hooks as [|h hooks IH]; intros i w u w'; cbn [run_hooks].
  - intros [= <- <-]. by rewrite app_nil_r.
  - intros E. apply bind_ok in E as (a & w1 & E1 & E2).
    apply invoke_ok in E1. apply IH in E2. rewrite E2, E1. cbn.
    by rewrite <- app_assoc.
Qed.

Lemma chained_calls hooks :
  forall i r st evs r',
    chained hooks i r st evs r' ->
    Forall2 (fun ev j => exists v, ev = Event (CAfterRender j v) None)
      evs (seq i (length hooks)).
Proof.
  induction hooks as [|h hooks IH]; intros i r st evs r' H;
    inversion H; subst; cbn; constructor; eauto.
Qed.

Lemma invoke_ok_state {A} c (f : BlockState -> outcome A * BlockState) w a w' :
  invoke c f w = (Ok a, w') ->
  f (w_state w) = (Ok a, w_state w') /\ w_log w' = w_log w ++ [Event c None].
Proof.
  unfold invoke. destruct (f (w_state w)) as [o st1]. by intros [= -> <-].
Qed.

Lemma ran_hooks_events stage hooks :
  forall i st evs u st',
    ran_hooks stage hooks i st evs (Ok u) st' ->
    evs = map (fun j => Event (stage j) None) (seq i (length hooks)).
Proof.
  induction hooks as [|h hooks IH]; intros i st evs u st' H;
    inversion H; subst; cbn; [done|]. f_equal. by eapply IH.
Qed.

(** X11: when [parse] returns, this is what happened, in this order.
    [process] was called on the supplied (or fresh) state and returned.
    The pre-parse hooks were run on the state it left, in list order, each
    on the state as the hook before it left it, and all returned
    ([ran_hooks]).  [block.parse] was called on the state the last of them
    left, and returned.  The pre-render hooks were run on the state it left,
    in the same way.  [render_state] was called on the state the last of
    them left, made only calls of the inline parser and of the renderer, and
    returned [r0].  The post-render hooks were run in list order, the first
    on [r0], each other one on what the hook before it returned
    ([chained]); what the last returned is the result.  No call outside the
    rendering stage raised.  So a pre-render hook runs after the block
    parser and before any inline parsing or rendering, and a post-render
    hook after all of it. *)
Theorem pipeline_order md s state log res w' :
  parse md s state log = (Ok res, w') ->
  exists st1 evs_pp st2 st3 evs_pr st4 r0 w5 evs_render evs_after,
    process (state_cls (block md)) (normalize s) (state_or_new md state) = (Ok tt, st1)
    /\ ran_hooks CBeforeParse (before_parse_hooks md) 0 st1 evs_pp (Ok tt) st2
    /\ block_parse (block md) st2 = (Ok tt, st3)
    /\ ran_hooks CBeforeRender (before_render_hooks md) 0 st3 evs_pr (Ok tt) st4
    /\ render_state md
         (World st4 (log ++ Event (CProcess (normalize s)) None :: evs_pp
                         ++ Event CBlockParse None :: evs_pr))
       = (Ok r0, w5)
    /\ w_log w5 = (log ++ Event (CProcess (normalize s)) None :: evs_pp
                       ++ Event CBlockParse None :: evs_pr) ++ evs_render
    /\ Forall (fun ev => is_render_call (ev_call ev) = true) evs_render
    /\ chained (after_render_hooks md) 0 r0 (w_state w5) evs_after (fst res)
    /\ snd res = w_state w'
    /\ w_log w' = w_log w5 ++ evs_after
    /\ w_log w' = log
                  ++ map (fun c => Event c None) (block_phase_calls md (normalize s))
                  ++ map (fun i => Event (CBeforeRender i) None)
                       (seq 0 (length (before_render_hooks md)))
                  ++ evs_render ++ evs_after
    /\ Forall2 (fun ev i => exists v, ev = Event (CAfterRender i v) None)
         evs_after (seq 0 (length (after_render_hooks md))).
Proof.
  unfold parse, pipeline. intros E.
  apply bind_ok in E as ([] & w1 & E1 & E). apply invoke_ok_state in E1 as [E1 Hl1].
  apply bind_ok in E as ([] & w2 & E2 & E).
  apply run_hooks_ran in E2 as (evs_pp & Hl2 & Hpp).
  apply bind_ok in E as ([] & w3 & E3 & E). apply invoke_ok_state in E3 as [E3 Hl3].
  apply bind_ok in E as ([] & w4 & E4 & E).
  apply run_hooks_ran in E4 as (evs_pr & Hl4 & Hpr).
  apply bind_ok in E as (r0 & w5 & E5 & E).
  apply bind_ok in E as (r & w6 & E6 & E).
  apply bind_ok in E as (st' & w7 & [= <- <-] & [= <- <-]).
  cbn [w_state w_log] in *.
  assert (Hlog4 : w_log w4 = log ++ Event (CProcess (normalize s)) None :: evs_pp
                                 ++ Event CBlockParse None :: evs_pr).
  { rewrite Hl4, Hl3, Hl2, Hl1. by rewrite <- !app_assoc. }
  assert (H5 : satisfies only_render_calls (render_state md)).
  { apply satisfies_render_state; tc; [by intros | by repeat constructor..]. }
  destruct (H5 _ _ _ E5) as (evs_render & Hl5 & HQ).
  destruct (run_after_hooks_chained _ _ _ _ _ _ E6) as (evs_after & Hl6 & Hc).
  exists (w_state w1), evs_pp, (w_state w2), (w_state w3), evs_pr, (w_state w4),
    r0, w5, evs_render, evs_after.
  split; [done|]. split; [done|]. split; [done|]. split; [done|].
  split; [destruct w4 as [st4 log4]; cbn [w_state w_log] in *; by rewrite <- Hlog4|].
  split; [by rewrite Hl5, Hlog4|]. split; [done|]. split; [done|].
  split; [done|]. split; [done|]. split; [|by eapply chained_calls].
  rewrite Hl6, Hl5, Hlog4.
  rewrite (ran_hooks_events _ _ _ _ _ _ _ Hpp), (ran_hooks_events _ _ _ _ _ _ _ Hpr).
  unfold block_phase_calls. cbn. rewrite map_app, map_map. cbn.
  repeat (rewrite <- app_assoc || rewrite <- app_comm_cons). done.
Qed.

Lemma pipeline_order_witness :
  parse demo_full_md "hello world" None [] = (Ok (VNum 2, demo_full_state), demo_full_world)
  /\
  exists st1 evs_pp st2 st3 evs_pr st4 r0 w5 evs_render evs_after,
    process (state_cls (block demo_full_md)) (normalize "hello world")
      (state_or_new demo_full_md None) = (Ok tt, st1)
    /\ ran_hooks CBeforeParse (before_parse_hooks demo_full_md) 0 st1 evs_pp (Ok tt) st2
    /\ block_parse (block demo_full_md) st2 = (Ok tt, st3)
    /\ ran_hooks CBeforeRender (before_render_hooks demo_full_md) 0 st3 evs_pr (Ok tt) st4
    /\ render_state demo_full_md
         (World st4 ([] ++ Event (CProcess (normalize "hello world")) None :: evs_pp
                         ++ Event CBlockParse None :: evs_pr))
       = (Ok r0, w5)
    /\ w_log w5 = ([] ++ Event (CProcess (normalize "hello world")) None :: evs_pp
                       ++ Event CBlockParse None :: evs_pr) ++ evs_render
    /\ Forall (fun ev => is_render_call (ev_call ev) = true) evs_render
    /\ chained (after_render_hooks demo_full_md) 0 r0 (w_state w5) evs_after
         (fst (VNum 2, demo_full_state))
    /\ snd (VNum 2, demo_full_state) = w_state demo_full_world
    /\ w_log demo_full_world = w_log w5 ++ evs_after
    /\ w_log demo_full_world = []
                  ++ map (fun c => Event c None)
                       (block_phase_calls demo_full_md (normalize "hello world"))
                  ++ map (fun i => Event (CBeforeRender i) None)
                       (seq 0 (length (before_render_hooks demo_full_md)))
                  ++ evs_render ++ evs_after
    /\ Forall2 (fun ev i => exists v, ev = Event (CAfterRender i v) None)
         evs_after (seq 0 (length (after_render_hooks demo_full_md))).
Proof.
  assert (E : parse demo_full_md "hello world" None []
              = (Ok (VNum 2, demo_full_state), demo_full_world)).
  { vm_compute. reflexivity. }
  split; [exact E|].
  exact (pipeline_order demo_full_md "hello world" None []
           (VNum 2, demo_full_state) demo_full_world E).
Defined.

(** ** Construction *)

Lemma run_plugins_app ps1 ps2 md :
  run_plugins (ps1 ++ ps2) md
  = match run_plugins ps1 md with
    | (Ok _, md') => run_plugins ps2 md'
    | (Raise e, md') => (Raise e, md')
    end.
Proof.
  revert md. induction ps1 as [|p ps1 IH]; intros md; [done|].
  cbn [app run_plugins]. destruct (p md) as [[[]|e] md']; [apply IH | done].
Qed.

Lemma init_run_plugins defaults r b i ps :
  __init__ defaults r b i (Some ps)
  = match __init__ defaults r b i None with
    | (Ok _, md) => run_plugins ps md
    | (Raise e, md) => (Raise e, md)
    end.
Proof. by destruct ps. Qed.

(** X12: plugins given at construction are applied in list order, each to
    the instance as the ones before it left it, and a plugin that raises
    ends the construction before the later ones are called: constructing
    with plugins is constructing without and then calling [use] with each
    plugin in turn.  An empty list of plugins is no plugins. *)
Theorem init_plugins_then_use defaults r b i ps p :
  __init__ defaults r b i (Some []) = __init__ defaults r b i None
  /\ __init__ defaults r b i (Some (ps ++ [p]))
     = match __init__ defaults r b i (Some ps) with
       | (Ok _, md) => use p md
       | (Raise e, md) => (Raise e, md)
       end.
Proof.
  split; [done|]. rewrite !init_run_plugins.
  destruct (__init__ defaults r b i None) as [[[]|e] md]; [|done].
  rewrite run_plugins_app.
  destruct (run_plugins ps md) as [[[]|e] md']; [|done].
  cbn [run_plugins]. unfold use. by destruct (p md') as [[[]|e] md''].
Qed.

(** X13: an instance constructed without plugins has no hooks: whatever
    [parse] does with it, no hook is called. *)
Theorem plain_instance_calls_no_hook defaults r b i md s state log o w' :
  __init__ defaults r b i None = (Ok tt, md) ->
  parse md s state log = (o, w') ->
  exists evs,
    w_log w' = log ++ evs
    /\ Forall (fun ev => is_hook_call (ev_call ev) = false) evs.
Proof.
  intros [= <-]. unfold parse. intros E.
  refine ((_ : satisfies no_hook_call (pipeline _ (normalize s))) _ _ _ E).
  unfold pipeline. cbn [before_parse_hooks before_render_hooks after_render_hooks
                        run_hooks run_after_hooks].
  repeat (apply satisfies_bind; tc; [|intros]);
    try (apply satisfies_invoke; tc; intros; by repeat constructor);
    try (apply satisfies_ret; tc).
  - apply satisfies_render_state; tc; [by intros | by repeat constructor..].
  - apply satisfies_get_state; tc.
Qed.

Lemma plain_instance_calls_no_hook_witness :
  __init__ demo_defaults None None None None = (Ok tt, demo_md)
  /\ parse demo_md "hello world" None []
     = (Ok (VTokens demo_counting_result, demo_chain_state), demo_chain_rendered)
  /\ exists evs,
      w_log demo_chain_rendered = [] ++ evs
      /\ Forall (fun ev => is_hook_call (ev_call ev) = false) evs.
Proof.
  split; [reflexivity|]. split; [vm_compute; reflexivity|].
  apply (plain_instance_calls_no_hook demo_defaults None None None demo_md
           "hello world" None []
           (Ok (VTokens demo_counting_result, demo_chain_state)) demo_chain_rendered);
    [reflexivity | vm_compute; reflexivity].
Defined.

(** ** Reading a file, continued *)

(** X14: when the file opens and decodes, [read] is [parse] of the decoded
    text on the state with the path recorded: the state that [process], the
    hooks and the block parser get maps ['__file__'] to the path (an earlier
    value is overwritten), and every other entry of the environment, the
    tokens and the source of a supplied state are handed over untouched. *)
Theorem read_records_path_only md host filepath encoding state log bytes s :
  open_rb host filepath = Ok bytes ->
  decode host encoding bytes = Ok s ->
  exists st,
    read md host filepath encoding state log = parse md s (Some st) log
    /\ st_env st !! "__file__" = Some (VStr filepath)
    /\ (forall key, key <> "__file__" ->
                    st_env st !! key = st_env (state_or_new md state) !! key)
    /\ st_tokens st = st_tokens (state_or_new md state)
    /\ st_src st = st_src (state_or_new md state).
Proof.
  intros Ho Hd. eexists. split.
  - unfold read. rewrite Ho, Hd. reflexivity.
  - cbn. split; [apply lookup_insert_eq|]. split; [|done].
    intros key Hk. by apply lookup_insert_ne.
Qed.

Lemma read_records_path_only_witness :
  open_rb host_one_file "new.md" = Ok [Byte.x68; Byte.x69]
  /\ decode host_one_file "utf-8" [Byte.x68; Byte.x69] = Ok "hi"
  /\ exists st,
      read demo_md host_one_file "new.md" "utf-8" (Some demo_shared_state) []
      = parse demo_md "hi" (Some st) []
      /\ st_env st !! "__file__" = Some (VStr "new.md")
      /\ (forall key, key <> "__file__" ->
                      st_env st !! key
                      = st_env (state_or_new demo_md (Some demo_shared_state)) !! key)
      /\ st_tokens st = st_tokens (state_or_new demo_md (Some demo_shared_state))
      /\ st_src st = st_src (state_or_new demo_md (Some demo_shared_state)).
Proof.
  split; [reflexivity|]. split; [reflexivity|].
  apply (read_records_path_only demo_md host_one_file "new.md" "utf-8"
           (Some demo_shared_state) [] [Byte.x68; Byte.x69] "hi");
    reflexivity.
Defined.

(** ** No rendering after a failure upstream *)

Lemma run_hooks_not_render stage hooks :
  (forall i, is_render_call (stage i) = false) ->
  forall i w o w',
    run_hooks stage i hooks w = (o, w') ->
    exists evs, w_log w' = w_log w ++ evs
                /\ Forall (fun ev => is_render_call (ev_call ev) = false) evs.
Proof.
  intros Hs. induction hooks as [|h hooks IH]; intros i w o w'; cbn [run_hooks].
  - intros [= <- <-]. exists []. by rewrite app_nil_r.
  - unfold bind. destruct (invoke (stage i) h w) as [[[]|e] w1] eqn:E1;
      apply invoke_log in E1; cbn in E1.
    + intros E2. destruct (IH _ _ _ _ E2) as (evs & Hl & Hf).
      exists (Event (stage i) None :: evs). split.
      * by rewrite Hl, E1, <- app_assoc.
      * constructor; [apply Hs | done].
    + intros [= <- <-]. exists [Event (stage i) (Some e)]. split; [done|].
      constructor; [apply Hs | constructor].
Qed.

(** X15: the rendering stage starts only when everything before it has
    returned.  Whatever the outcome of [parse], if the inline parser or the
    renderer was called at all, the log starts with [process], every
    pre-parse hook, [block.parse] and every pre-render hook, each of which
    returned: after a failure of the block parser or of a hook, nothing is
    resolved and nothing is rendered. *)
Theorem rendering_needs_all_before md s state log o w' evs ev :
  parse md s state log = (o, w') ->
  w_log w' = log ++ evs ->
  ev ∈ evs ->
  is_render_call (ev_call ev) = true ->
  exists rest, evs = calls_before_rendering md (normalize s) ++ rest.
Proof.
  unfold parse, pipeline, calls_before_rendering, block_phase_calls.
  set (s' := normalize s). intros E Hlog Hin Hev.
  assert (Hno : forall l, w_log w' = log ++ l ->
                          Forall (fun ev => is_render_call (ev_call ev) = false) l ->
                          False).
  { intros l Hl Hf. rewrite Hl in Hlog. apply app_inv_head in Hlog. subst l.
    rewrite Forall_forall in Hf. specialize (Hf _ Hin). congruence. }
  unfold bind at 1 in E.
  destruct (invoke (CProcess s') _ _) as [[[]|e] w1] eqn:E1;
    apply invoke_log in E1; cbn in E1.
  2:{ injection E as <- <-. destruct (Hno _ E1). by repeat constructor. }
  unfold bind at 1 in E.
  destruct (run_hooks CBeforeParse 0 _ w1) as [[[]|e] w2] eqn:E2.
  2:{ injection E as <- <-.
      apply run_hooks_not_render in E2 as (l & Hl & Hf); [|done].
      destruct (Hno (Event (CProcess s') None :: l)).
      - by rewrite Hl, E1, <- app_assoc.
      - by constructor. }
  apply run_hooks_ok in E2. unfold bind at 1 in E.
  destruct (invoke CBlockParse _ w2) as [[[]|e] w3] eqn:E3;
    apply invoke_log in E3; cbn in E3.
  2:{ injection E as <- <-.
      destruct (Hno ([Event (CProcess s') None]
                     ++ map (fun j => Event (CBeforeParse j) None)
                          (seq 0 (length (before_parse_hooks md)))
                     ++ [Event CBlockParse (Some e)])).
      - by rewrite E3, E2, E1, <- !app_assoc.
      - apply Forall_app. split; [by repeat constructor|].
        apply Forall_app. split; [|by repeat constructor].
        apply Forall_forall. by intros x (j & -> & _)%list_elem_of_fmap. }
  unfold bind at 1 in E.
  destruct (run_hooks CBeforeRender 0 _ w3) as [[[]|e] w4] eqn:E4.
  2:{ injection E as <- <-.
      apply run_hooks_not_render in E4 as (l & Hl & Hf); [|done].
      destruct (Hno ([Event (CProcess s') None]
                     ++ map (fun j => Event (CBeforeParse j) None)
                          (seq 0 (length (before_parse_hooks md)))
                     ++ [Event CBlockParse None] ++ l)).
      - rewrite Hl, E3, E2, E1. by rewrite <- !app_assoc.
      - apply Forall_app. split; [by repeat constructor|].
        apply Forall_app. split.
        + apply Forall_forall. by intros x (j & -> & _)%list_elem_of_fmap.
        + by constructor. }
  apply run_hooks_ok in E4.
  assert (Hrest : satisfies (fun _ _ => True)
                    (result <- render_state md ;;
                     result <- run_after_hooks 0 (after_render_hooks md) result ;;
                     state <- get_state ;;
                     ret (result, state))).
  { intros w o0 w0. unfold bind, ret, get_state.
    destruct (render_state md w) as [[r0|e] w5] eqn:E5.
    - destruct (run_after_hooks 0 _ r0 w5) as [[r|e] w6] eqn:E6; intros [= <- <-];
        destruct (render_state_no_block_phase md _ _ _ E5) as (l5 & Hl5 & _);
        destruct (satisfies_run_after_hooks no_block_phase (after_render_hooks md)
                    (fun _ _ _ => ltac:(by repeat constructor)) 0 r0 _ _ _ E6)
          as (l6 & Hl6 & _);
        exists (l5 ++ l6); (split; [by rewrite Hl6, Hl5, app_assoc | done]).
    - intros [= <- <-].
      destruct (render_state_no_block_phase md _ _ _ E5) as (l5 & Hl5 & _).
      by exists l5. }
  destruct (Hrest _ _ _ E) as (rest & Hl & _).
  exists rest. rewrite Hl, E4, E3, E2, E1 in Hlog.
  rewrite <- !app_assoc in Hlog. apply app_inv_head in Hlog. subst evs.
  cbn. rewrite map_app, map_map. cbn. by rewrite <- !app_assoc.
Qed.

Lemma rendering_needs_all_before_witness :
  parse demo_counting_md "hello world" None []
  = (Ok (VTokens demo_counting_result, w_state demo_counting_world), demo_counting_world)
  /\ w_log demo_counting_world = [] ++ w_log demo_counting_world
  /\ Event (CInline "hello world" {["seen" := VNum 0]}) None ∈ w_log demo_counting_world
  /\ is_render_call (ev_call (Event (CInline "hello world" {["seen" := VNum 0]}) None)) = true
  /\ exists rest,
      w_log demo_counting_world
      = calls_before_rendering demo_counting_md (normalize "hello world") ++ rest.
Proof.
  assert (Hin : Event (CInline "hello world" {["seen" := VNum 0]}) None
                ∈ w_log demo_counting_world).
  { cbn. do 3 apply list_elem_of_further. apply list_elem_of_here. }
  split; [vm_compute; reflexivity|]. split; [reflexivity|]. split; [exact Hin|].
  split; [reflexivity|].
  apply (rendering_needs_all_before demo_counting_md "hello world" None []
           (Ok (VTokens demo_counting_result, w_state demo_counting_world))
           demo_counting_world (w_log demo_counting_world)
           (Event (CInline "hello world" {["seen" := VNum 0]}) None));
    [vm_compute; reflexivity | reflexivity | exact Hin | reflexivity].
Defined.
